(** * Dynamic namespace registry (src/dbnode/storage/namespace/dynamic.go)

    A shallow embedding of the dynamic registry of the [namespace] package:
    the initializer, the construction of a registry from a remote watch,
    the synchronisation loop [run], the metrics sampler and the public
    operations [Watch] and [Close].

    Conventions.
    - A Go [error] value is a term of [error]; a [(T, error)] result is a
      [result T]; a nil-able interface value is an [option].
    - [kv.Value], the proto message and [Map] are interfaces of other
      packages: they are the classes [KVValue] and [NamespaceMap].
    - The goroutines are modelled by a program counter per goroutine and an
      interleaving step function; the sequential reading of [run] is kept
      as the fixpoint [run] and related to the interleaved one. *)

From Stdlib Require Import ZArith List String Bool Lia Sorted.
From stdpp Require Import base option list gmap.
Import ListNotations.
Local Open Scope Z_scope.

(** ** Errors and results *)

(** The three package-level errors of dynamic.go, the error of a closed
    [xwatch.Watchable], and errors produced by code outside the package. *)
Inductive error : Type :=
| errInitTimeOut
| errRegistryAlreadyClosed
| errInvalidRegistry
| errClosed
| errExternal (msg : string).

Definition Error (e : error) : string :=
  match e with
  | errInitTimeOut => "timed out waiting for initial value"
  | errRegistryAlreadyClosed => "registry already closed"
  | errInvalidRegistry => "could not parse latest value from config service"
  | errClosed => "closed"
  | errExternal msg => msg
  end.

Inductive result (A : Type) : Type :=
| Ok (a : A)
| Err (e : error).
Arguments Ok {A} a.
Arguments Err {A} e.

(** ** External collaborators *)

(** [kv.Value]: a versioned value of the remote store.  [IsNewer] takes a
    possibly nil value; [Unmarshal] decodes the payload into the proto
    message [P]. *)
Class KVValue (V P : Type) := {
  Version : V -> Z;
  IsNewer : V -> option V -> bool;
  Unmarshal : V -> result P
}.

(** [Map] with its constructor [FromProto] and its structural equality. *)
Class NamespaceMap (P M : Type) := {
  FromProto : P -> result M;
  Equal : M -> M -> bool
}.

(** [DynamicOptions], read through its accessors.  [Validate] is the
    outcome of [opts.Validate()] ([None] is a nil error). *)
Record DynamicOptions := {
  Validate : option error;
  NamespaceRegistryKey : string;
  InitTimeout : Z;
  ReportInterval : Z
}.

(** Lines written through the logger. *)
Inductive logLine : Type :=
| Errorf_init_timed_out (d : Z) (e : error)
| Errorf_invalid_initial (e : error)
| Warnf_nil
| Warnf_older (ver : Z)
| Warnf_invalid (e : error)
| Warnf_identical
| Infof_updated (ver : Z).

(** [kv.ValueWatch]: the handle on the watched key.  What [C()] and
    [Get()] yield comes from the remote side and is supplied to the loop as
    a [chanEvent]. *)
Record ValueWatch := {
  watchKey : string;
  watchClosed : bool
}.

Definition ValueWatch_Close (w : ValueWatch) : ValueWatch :=
  {| watchKey := watchKey w; watchClosed := true |}.

(** [float64(x)] for a Go [int] [x], as the integer the resulting float is:
    up to 53 bits the conversion is exact, beyond that the bits below the
    53 leading ones are rounded away, to nearest and to even on a tie. *)
Definition float64_of_int (z : Z) : Z :=
  let a := Z.abs z in
  let n := Z.log2 a + 1 in
  if n <=? 53 then z
  else
    let s := n - 53 in
    let q := Z.shiftr a s in
    let rest := Z.land a (Z.ones s) in
    let half := Z.shiftl 1 (s - 1) in
    let up := if (half <? rest) || ((rest =? half) && Z.odd q) then 1 else 0 in
    Z.sgn z * Z.shiftl (q + up) s.

Section Registry.

Context {V P M : Type} `{KV : KVValue V P} `{NM : NamespaceMap P M}.

(** ** The broadcast hub *)

(** Modelled from the spec: [xwatch.Watchable] is not part of the source
    tree; section 4.5 of the specification describes it.  [Update] stores
    the latest value and makes it visible to the subscribers, [Watch]
    registers a subscriber who sees the current value first, [Close]
    releases every subscriber and then rejects [Update] and [Watch].
    [wHistory] lists the values of the accepted [Update] calls, oldest
    first: it is what a subscriber that reads on every notification sees. *)
Record Watchable := {
  wClosed : bool;
  wValue : option M;
  wActive : nat;
  wHistory : list M
}.

Definition NewWatchable : Watchable :=
  {| wClosed := false; wValue := None; wActive := 0%nat; wHistory := [] |}.

Definition Watchable_Update (m : M) (w : Watchable) : option error * Watchable :=
  if wClosed w then (Some errClosed, w)
  else (None, {| wClosed := false; wValue := Some m;
                 wActive := wActive w; wHistory := wHistory w ++ [m] |}).

(** A subscription remembers how many updates preceded it. *)
Record Subscription := {
  subFirst : option M;
  subSince : nat
}.

Definition Watchable_Watch (w : Watchable) : result Subscription * Watchable :=
  if wClosed w then (Err errClosed, w)
  else (Ok {| subFirst := wValue w; subSince := length (wHistory w) |},
        {| wClosed := false; wValue := wValue w;
           wActive := S (wActive w); wHistory := wHistory w |}).

Definition Watchable_Close (w : Watchable) : Watchable :=
  if wClosed w then w
  else {| wClosed := true; wValue := wValue w;
          wActive := 0%nat; wHistory := wHistory w |}.

(** What hub [w] has had to show since subscription [s] was taken: the
    value current at subscription time, then every later update.  A
    subscriber that reads after each notification and before the next
    update is shown exactly this list; one that reads more rarely is shown
    the latest value only, so a sublist of it. *)
Definition observed (w : Watchable) (s : Subscription) : list M :=
  match subFirst s with
  | Some m => m :: drop (subSince s) (wHistory w)
  | None => drop (subSince s) (wHistory w)
  end.

(** ** The registry *)

Record dynamicRegistryMetrics := {
  numInvalidUpdates : Z;
  currentVersion : Z
}.

Definition newDynamicRegistryMetrics (opts : DynamicOptions) : dynamicRegistryMetrics :=
  {| numInvalidUpdates := 0; currentVersion := 0 |}.

Record dynamicRegistry := {
  opts : DynamicOptions;
  logger : list logLine;
  metrics : dynamicRegistryMetrics;
  watchable : Watchable;
  kvWatch : ValueWatch;
  currentValue : option V;
  currentMap : M;
  closed : bool
}.

(** [r.metrics.numInvalidUpdates.Inc(1)] *)
Definition numInvalidUpdates_Inc (r : dynamicRegistry) : dynamicRegistry :=
  {| opts := opts r; logger := logger r;
     metrics := {| numInvalidUpdates := numInvalidUpdates (metrics r) + 1;
                   currentVersion := currentVersion (metrics r) |};
     watchable := watchable r; kvWatch := kvWatch r;
     currentValue := currentValue r; currentMap := currentMap r;
     closed := closed r |}.

(** [r.metrics.currentVersion.Update(x)] *)
Definition currentVersion_Update (x : Z) (r : dynamicRegistry) : dynamicRegistry :=
  {| opts := opts r; logger := logger r;
     metrics := {| numInvalidUpdates := numInvalidUpdates (metrics r);
                   currentVersion := x |};
     watchable := watchable r; kvWatch := kvWatch r;
     currentValue := currentValue r; currentMap := currentMap r;
     closed := closed r |}.

(** [r.logger.Warnf(..)] and [r.logger.Infof(..)] *)
Definition log (l : logLine) (r : dynamicRegistry) : dynamicRegistry :=
  {| opts := opts r; logger := logger r ++ [l];
     metrics := metrics r;
     watchable := watchable r; kvWatch := kvWatch r;
     currentValue := currentValue r; currentMap := currentMap r;
     closed := closed r |}.

Definition getMapFromUpdate (val : option V) : result M :=
  match val with
  | None => Err errInvalidRegistry
  | Some v =>
      match Unmarshal v with
      | Err _ => Err errInvalidRegistry
      | Ok protoRegistry => FromProto protoRegistry
      end
  end.

Definition isClosed (r : dynamicRegistry) : bool := closed r.
Definition value (r : dynamicRegistry) : option V := currentValue r.
Definition maps (r : dynamicRegistry) : M := currentMap r.

Definition Close (r : dynamicRegistry) : option error * dynamicRegistry :=
  if closed r then (Some errRegistryAlreadyClosed, r)
  else (None,
        {| opts := opts r; logger := logger r; metrics := metrics r;
           watchable := Watchable_Close (watchable r);
           kvWatch := ValueWatch_Close (kvWatch r);
           currentValue := currentValue r; currentMap := currentMap r;
           closed := true |}).

(** [NewWatch(w)] wraps the hub's subscription without changing it. *)
Definition Watch (r : dynamicRegistry) : result Subscription * dynamicRegistry :=
  match Watchable_Watch (watchable r) with
  | (Err err, _) => (Err err, r)
  | (Ok w, hub) =>
      (Ok w,
       {| opts := opts r; logger := logger r; metrics := metrics r;
          watchable := hub; kvWatch := kvWatch r;
          currentValue := currentValue r; currentMap := currentMap r;
          closed := closed r |})
  end.

(** ** The synchronisation loop *)

(** One receive on [r.kvWatch.C()]: either a notification, after which
    [r.kvWatch.Get()] returns [got], or the closed channel. *)
Inductive chanEvent : Type :=
| Notified (got : option V)
| ChanClosed.

(** The part of the loop body between the receive and the locked section:
    the four checks.  [Skip] is a [continue], [Accept] reaches the locked
    section with the value and its map. *)
Inductive verdict : Type :=
| Skip (r : dynamicRegistry)
| Accept (val : V) (m : M) (r : dynamicRegistry).

Definition examine (got : option V) (r : dynamicRegistry) : verdict :=
  match got with
  | None => Skip (log Warnf_nil (numInvalidUpdates_Inc r))
  | Some val =>
      if negb (IsNewer val (currentValue r)) then
        Skip (log (Warnf_older (Version val)) (numInvalidUpdates_Inc r))
      else
        match getMapFromUpdate (Some val) with
        | Err err => Skip (log (Warnf_invalid err) (numInvalidUpdates_Inc r))
        | Ok m =>
            if Equal m (maps r) then
              Skip (log Warnf_identical (numInvalidUpdates_Inc r))
            else
              Accept val m (log (Infof_updated (Version val)) r)
        end
  end.

(** The locked section: both fields are replaced and the map is handed to
    the hub, whose error is dropped. *)
Definition install (val : V) (m : M) (r : dynamicRegistry) : dynamicRegistry :=
  {| opts := opts r; logger := logger r; metrics := metrics r;
     watchable := snd (Watchable_Update m (watchable r));
     kvWatch := kvWatch r;
     currentValue := Some val; currentMap := m;
     closed := closed r |}.

(** The loop body after a successful receive. *)
Definition iteration (got : option V) (r : dynamicRegistry) : dynamicRegistry :=
  match examine got r with
  | Skip r' => r'
  | Accept val m r' => install val m r'
  end.

Inductive loopStatus : Type :=
| Blocked    (* waiting on the channel: no event left *)
| Returned.  (* the loop has ended *)

(** [run], read sequentially: the events are what the channel yields, in
    order, while no other goroutine touches the registry. *)
Fixpoint run (evs : list chanEvent) (r : dynamicRegistry) : dynamicRegistry * loopStatus :=
  if isClosed r then (r, Returned)
  else
    match evs with
    | [] => (r, Blocked)
    | ChanClosed :: _ => (snd (Close r), Returned)
    | Notified got :: rest => run rest (iteration got r)
    end.

(** One tick of [reportMetrics]; [false] ends the sampler.  The gauge is
    set to [float64(r.value().Version())].  A nil [currentValue] would make
    [r.value().Version()] panic; no reachable registry has one (by
    [inv_parse]), and the tick then leaves the registry alone. *)
Definition reportMetrics_tick (r : dynamicRegistry) : dynamicRegistry * bool :=
  if isClosed r then (r, false)
  else
    match value r with
    | Some v => (currentVersion_Update (float64_of_int (Version v)) r, true)
    | None => (r, true)
    end.

(** ** Interleaving *)

(** Where the goroutine running [run] stands. *)
Inductive runPC : Type :=
| AtLoopHead                    (* about to evaluate [!r.isClosed()] *)
| AtReceive                     (* blocked on [<-r.kvWatch.C()] *)
| AtInstall (val : V) (m : M)   (* checks passed, about to take the lock *)
| AtReturn.

Record Proc := {
  reg : dynamicRegistry;
  pc : runPC;
  sampling : bool
}.

(** The atomic actions: three of [run], the sampler's tick, and the calls
    other goroutines make. *)
Inductive op : Type :=
| RunHead
| RunReceive (ev : chanEvent)
| RunInstall
| SamplerTick
| CallClose
| CallWatch.

(** An action that is not enabled leaves the process as it is. *)
Definition step (o : op) (p : Proc) : Proc :=
  match o, pc p with
  | RunHead, AtLoopHead =>
      {| reg := reg p;
         pc := if isClosed (reg p) then AtReturn else AtReceive;
         sampling := sampling p |}
  | RunReceive ChanClosed, AtReceive =>
      {| reg := snd (Close (reg p)); pc := AtReturn; sampling := sampling p |}
  | RunReceive (Notified got), AtReceive =>
      match examine got (reg p) with
      | Skip r' => {| reg := r'; pc := AtLoopHead; sampling := sampling p |}
      | Accept val m r' =>
          {| reg := r'; pc := AtInstall val m; sampling := sampling p |}
      end
  | RunInstall, AtInstall val m =>
      {| reg := install val m (reg p); pc := AtLoopHead; sampling := sampling p |}
  | SamplerTick, _ =>
      if sampling p then
        {| reg := fst (reportMetrics_tick (reg p)); pc := pc p;
           sampling := snd (reportMetrics_tick (reg p)) |}
      else p
  | CallClose, _ =>
      {| reg := snd (Close (reg p)); pc := pc p; sampling := sampling p |}
  | CallWatch, _ =>
      {| reg := snd (Watch (reg p)); pc := pc p; sampling := sampling p |}
  | _, _ => p
  end.

Definition exec (os : list op) (p : Proc) : Proc :=
  fold_left (fun q o => step o q) os p.

(** The actions of one uninterrupted loop iteration. *)
Definition turn (ev : chanEvent) : list op :=
  [RunHead; RunReceive ev; RunInstall].

(** ** Construction *)

(** The registry as [newDynamicRegistry] builds it, with its two
    goroutines started. *)
Definition start (o : DynamicOptions) (watch : ValueWatch)
    (initValue : option V) (m : M) : Proc :=
  {| reg := {| opts := o; logger := [];
               metrics := newDynamicRegistryMetrics o;
               watchable := snd (Watchable_Update m NewWatchable);
               kvWatch := watch;
               currentValue := initValue; currentMap := m;
               closed := false |};
     pc := AtLoopHead;
     sampling := true |}.

(** What the outside answers during one call of [newDynamicRegistry]. *)
Record InitEnv := {
  envKV : option error;       (* error of [opts.ConfigServiceClient().KV()] *)
  envWatch : option error;    (* error of [kvStore.Watch(key)] *)
  envFirst : option Z;        (* delay before [w.C()] is ready; [None]: never *)
  envTie : bool;              (* [select] picks the channel when both are ready *)
  envGet : option V           (* [watch.Get()] after the wait *)
}.

(** [waitOnInit]: the error and the time spent waiting.  Time is the
    logical clock of [World]: [time.After(d)] fires [d] units after the
    call, the channel is ready [t] units after it. *)
Definition waitOnInit (first : option Z) (tie : bool) (d : Z) : option error * Z :=
  if d <=? 0 then (None, 0)
  else
    match first with
    | Some t =>
        if (t <? d) || ((t =? d) && tie) then (None, Z.max 0 t)
        else (Some errInitTimeOut, d)
    | None => (Some errInitTimeOut, d)
    end.

(** The registries live in a heap; a [Registry] value is an address. *)
Record World := {
  heap : gmap nat Proc;
  now : Z;                    (* clock *)
  validations : nat;          (* calls of [opts.Validate()] *)
  watches : list string;      (* keys on which a remote watch was opened *)
  errlog : list logLine
}.

Definition alloc (p : Proc) (w : World) : nat * World :=
  let l := fresh (dom (heap w)) in
  (l, {| heap := <[l := p]> (heap w); now := now w;
         validations := validations w; watches := watches w;
         errlog := errlog w |}).

Definition opened (key : string) (w : World) : World :=
  {| heap := heap w; now := now w; validations := validations w;
     watches := watches w ++ [key]; errlog := errlog w |}.

Definition waited (t : Z) (w : World) : World :=
  {| heap := heap w; now := now w + t; validations := validations w;
     watches := watches w; errlog := errlog w |}.

Definition Errorf (l : logLine) (w : World) : World :=
  {| heap := heap w; now := now w; validations := validations w;
     watches := watches w; errlog := errlog w ++ [l] |}.

Definition validated (w : World) : World :=
  {| heap := heap w; now := now w; validations := S (validations w);
     watches := watches w; errlog := errlog w |}.

Definition newDynamicRegistry (o : DynamicOptions) (env : InitEnv) (w : World)
    : result nat * World :=
  match envKV env with
  | Some err => (Err err, w)
  | None =>
      match envWatch env with
      | Some err => (Err err, w)
      | None =>
          let watch := {| watchKey := NamespaceRegistryKey o; watchClosed := false |} in
          let w := opened (NamespaceRegistryKey o) w in
          let '(werr, t) := waitOnInit (envFirst env) (envTie env) (InitTimeout o) in
          let w := waited t w in
          match werr with
          | Some err =>
              (Err err, Errorf (Errorf_init_timed_out (InitTimeout o) err) w)
          | None =>
              let initValue := envGet env in
              match getMapFromUpdate initValue with
              | Err err => (Err err, Errorf (Errorf_invalid_initial err) w)
              | Ok m =>
                  let '(dt, w) := alloc (start o watch initValue m) w in
                  (Ok dt, w)
              end
          end
      end
  end.

(** ** The initializer *)

Record dynamicInitializer := {
  iopts : DynamicOptions;
  ireg : option nat
}.

Definition NewDynamicInitializer (o : DynamicOptions) : dynamicInitializer :=
  {| iopts := o; ireg := None |}.

Definition Init (i : dynamicInitializer) (env : InitEnv) (w : World)
    : result nat * dynamicInitializer * World :=
  match ireg i with
  | Some r => (Ok r, i, w)
  | None =>
      let w := validated w in
      match Validate (iopts i) with
      | Some err => (Err err, i, w)
      | None =>
          match newDynamicRegistry (iopts i) env w with
          | (Err err, w) => (Err err, i, w)
          | (Ok r, w) => (Ok r, {| iopts := iopts i; ireg := Some r |}, w)
          end
      end
  end.

(** ** Notions used by the statements *)

(** The processes a registry can be in: a freshly started one, and
    whatever any interleaving of actions makes of it. *)
Inductive reachable : Proc -> Prop :=
| reachable_start o watch initValue m :
    getMapFromUpdate initValue = Ok m ->
    reachable (start o watch initValue m)
| reachable_step o p :
    reachable p -> reachable (step o p).

(** The four conditions under which section 4.3 of the specification
    rejects the value read after a notification. *)
Inductive rejected (r : dynamicRegistry) : option V -> Prop :=
| rejected_nil :
    rejected r None
| rejected_not_newer val :
    IsNewer val (currentValue r) = false -> rejected r (Some val)
| rejected_unparsable val err :
    getMapFromUpdate (Some val) = Err err -> rejected r (Some val)
| rejected_identical val m :
    getMapFromUpdate (Some val) = Ok m -> Equal m (currentMap r) = true ->
    rejected r (Some val).

(** Following the specification's words: of the values delivered in
    order, the maps that are non-nil, newer than the value kept so far,
    parse, and differ from the map kept so far. *)
Fixpoint passedChecks (cur : option V) (curMap : M) (gots : list (option V)) : list M :=
  match gots with
  | [] => []
  | None :: rest => passedChecks cur curMap rest
  | Some val :: rest =>
      match getMapFromUpdate (Some val) with
      | Ok m =>
          if IsNewer val cur && negb (Equal m curMap)
          then m :: passedChecks (Some val) m rest
          else passedChecks cur curMap rest
      | Err _ => passedChecks cur curMap rest
      end
  end.

(** The values whose maps the hub accepts while [os] runs from [p], each
    with its map, in order. *)
Fixpoint publications (os : list op) (p : Proc) : list (V * M) :=
  match os with
  | [] => []
  | o :: rest =>
      match o, pc p with
      | RunInstall, AtInstall val m =>
          if wClosed (watchable (reg p)) then publications rest (step o p)
          else (val, m) :: publications rest (step o p)
      | _, _ => publications rest (step o p)
      end
  end.

(** The invariant of a running registry. *)

(** The two fields agree, the hub is closed exactly when the registry is
    and the remote watch is closed once it is, and the hub shows the
    current map while it is open. *)
Record rinv (r : dynamicRegistry) : Prop := {
  inv_parse : getMapFromUpdate (currentValue r) = Ok (currentMap r);
  inv_hub : wClosed (watchable r) = closed r;
  inv_watch : closed r = true -> watchClosed (kvWatch r) = true;
  inv_shown : closed r = false -> wValue (watchable r) = Some (currentMap r)
}.

(** A value waiting for the lock has passed the checks against the fields
    as they still are. *)
Definition pending (p : Proc) : Prop :=
  forall val m, pc p = AtInstall val m ->
    IsNewer val (currentValue (reg p)) = true /\
    getMapFromUpdate (Some val) = Ok m /\
    Equal m (currentMap (reg p)) = false.

Definition inv (p : Proc) : Prop := rinv (reg p) /\ pending p.

(** A store whose [IsNewer] compares versions. *)
Definition ordersByVersion : Prop :=
  forall v w : V, IsNewer v (Some w) = true <-> Version w < Version v.

End Registry.

Arguments Watchable M : clear implicits.
Arguments dynamicRegistry V M : clear implicits.
Arguments Proc V M : clear implicits.
Arguments World V M : clear implicits.
Arguments InitEnv V : clear implicits.
Arguments chanEvent V : clear implicits.
Arguments op V : clear implicits.
Arguments getMapFromUpdate : simpl never.

(** ** Further notions *)

Section Published.

Context {V P M : Type} `{KV : KVValue V P} `{NM : NamespaceMap P M}.

(** No map of the list is structurally equal to the one just before it. *)
Fixpoint adjacentDiffer (l : list M) : Prop :=
  match l with
  | a :: (b :: _) as t => Equal b a = false /\ adjacentDiffer t
  | _ => True
  end.

(** The gauge has not been sampled yet, or holds the [float64] image of a
    version that is not above the stored one. *)
Definition gaugeBehind (r : dynamicRegistry V M) : Prop :=
  currentVersion (metrics r) = 0 \/
  exists w v, currentValue r = Some v /\ Version w <= Version v /\
    currentVersion (metrics r) = float64_of_int (Version w).

End Published.

(** ** A deterministic fake of the collaborators

    Values carry a version and, when their bytes decode, a document that
    maps namespace names to retention days. *)
Module Fake.

Local Open Scope string_scope.
Local Open Scope Z_scope.

Definition doc : Type := list (string * Z).

Record value := {
  ver : Z;
  bytes : option doc
}.

Fixpoint doc_eqb (a b : doc) : bool :=
  match a, b with
  | [], [] => true
  | (n, x) :: a', (k, y) :: b' => String.eqb n k && (x =? y) && doc_eqb a' b'
  | _, _ => false
  end.

#[global] Instance fake_value : KVValue value doc := {
  Version := ver;
  IsNewer v other :=
    match other with
    | None => true
    | Some w => ver w <? ver v
    end;
  Unmarshal v :=
    match bytes v with
    | Some d => Ok d
    | None => Err (errExternal "proto: cannot parse")
    end
}.

#[global] Instance fake_map : NamespaceMap doc doc := {
  FromProto d :=
    if existsb (fun e => String.eqb (fst e) "") d
    then Err (errExternal "namespace id is empty")
    else Ok d;
  Equal := doc_eqb
}.

Definition o30 : DynamicOptions :=
  {| Validate := None; NamespaceRegistryKey := "m3db.node.namespace_registry";
     InitTimeout := 30; ReportInterval := 10 |}.

Definition o0 : DynamicOptions :=
  {| Validate := None; NamespaceRegistryKey := "m3db.node.namespace_registry";
     InitTimeout := 0; ReportInterval := 10 |}.

Definition v1 : value := {| ver := 1; bytes := Some [("nsA", 1)] |}.
Definition v2 : value := {| ver := 2; bytes := Some [("nsA", 1)] |}.
Definition v3 : value := {| ver := 3; bytes := Some [("nsA", 2)] |}.
Definition v4 : value := {| ver := 4; bytes := Some [("nsA", 2); ("nsB", 7)] |}.
Definition vbad : value := {| ver := 5; bytes := None |}.

Definition kw : ValueWatch :=
  {| watchKey := "m3db.node.namespace_registry"; watchClosed := false |}.

Definition w0 : World value doc :=
  {| heap := ∅; now := 0; validations := 0%nat; watches := []; errlog := [] |}.

(** The value arrives after 5 time units. *)
Definition env_arrives : InitEnv value :=
  {| envKV := None; envWatch := None; envFirst := Some 5; envTie := false;
     envGet := Some v1 |}.

(** No value ever arrives. *)
Definition env_silent : InitEnv value :=
  {| envKV := None; envWatch := None; envFirst := None; envTie := false;
     envGet := None |}.

(** The value arrives after 5 time units; a reader at time 0 finds nil. *)
Definition env_late : InitEnv value :=
  {| envKV := None; envWatch := None; envFirst := Some 5; envTie := false;
     envGet := None |}.

(** The value is there when the watch is opened. *)
Definition env_ready : InitEnv value :=
  {| envKV := None; envWatch := None; envFirst := Some 0; envTie := true;
     envGet := Some v1 |}.

(** The started registry of the scenario of section 8. *)
Definition p1 : Proc value doc := start o30 kw (Some v1) [("nsA", 1)].

(** Deliveries with increasing versions and different contents. *)
Definition delivered : list value := [v3; v4].
Definition parsed : list doc := [[("nsA", 2)]; [("nsA", 2); ("nsB", 7)]].

(** The deliveries of the scenario of section 8, with a nil and an
    undecodable value added. *)
Definition scenario : list (chanEvent value) :=
  [Notified (Some v2); Notified (Some v3); Notified (Some v2);
   Notified None; Notified (Some vbad); Notified (Some v4)].

(** The values read after the notifications of [scenario]. *)
Definition reads : list (option value) :=
  [Some v2; Some v3; Some v2; None; Some vbad; Some v4].

End Fake.

(** * Properties *)

Section Facts.

Context {V P M : Type} `{KV : KVValue V P} `{NM : NamespaceMap P M}.

Implicit Types (r : dynamicRegistry V M) (p : Proc V M) (o : op V)
  (got : option V) (os : list (op V)).

(** ** The checks *)

Lemma examine_Skip got r r' :
  examine got r = Skip r' ->
  exists l, r' = log l (numInvalidUpdates_Inc r).
Proof.
  unfold examine. intros E.
  destruct got as [val|]; [|inversion E; eauto].
  destruct (IsNewer val (currentValue r)); simpl in E; [|inversion E; eauto].
  destruct (getMapFromUpdate (Some val)) as [m|err]; [|inversion E; eauto].
  destruct (Equal m (maps r)); inversion E; eauto.
Qed.

Lemma examine_Accept got r val m r' :
  examine got r = Accept val m r' ->
  got = Some val /\ IsNewer val (currentValue r) = true /\
  getMapFromUpdate (Some val) = Ok m /\ Equal m (currentMap r) = false /\
  r' = log (Infof_updated (Version val)) r.
Proof.
  unfold examine. intros E.
  destruct got as [v|]; [|discriminate].
  destruct (IsNewer v (currentValue r)) eqn:Hn; simpl in E; [|discriminate].
  destruct (getMapFromUpdate (Some v)) as [m'|err] eqn:Hp; [|discriminate].
  unfold maps in E.
  destruct (Equal m' (currentMap r)) eqn:He; [discriminate|].
  inversion E; subst. auto.
Qed.

Lemma examine_rejected got r :
  rejected r got -> exists l, examine got r = Skip (log l (numInvalidUpdates_Inc r)).
Proof.
  intros R. unfold examine.
  destruct R as [|val Hn|val err Hp|val m Hp He].
  - eauto.
  - rewrite Hn. simpl. eauto.
  - destruct (IsNewer val (currentValue r)); simpl; [|eauto].
    rewrite Hp. eauto.
  - destruct (IsNewer val (currentValue r)); simpl; [|eauto].
    rewrite Hp. unfold maps. rewrite He. eauto.
Qed.

(** ** What each action leaves alone *)

Lemma examine_keeps got r :
  let r' := match examine got r with Skip r' | Accept _ _ r' => r' end in
  currentValue r' = currentValue r /\
  currentMap r' = currentMap r /\
  watchable r' = watchable r /\
  closed r' = closed r.
Proof.
  destruct (examine got r) as [r'|val m r'] eqn:E.
  - apply examine_Skip in E as [l ->]. simpl. auto.
  - apply examine_Accept in E as (_ & _ & _ & _ & ->). simpl. auto.
Qed.

Lemma Close_state r :
  currentValue (snd (Close r)) = currentValue r /\
  currentMap (snd (Close r)) = currentMap r /\
  wHistory (watchable (snd (Close r))) = wHistory (watchable r).
Proof.
  unfold Close, Watchable_Close.
  destruct (closed r); simpl; [auto|].
  destruct (wClosed (watchable r)); auto.
Qed.

Lemma Watch_state r :
  currentValue (snd (Watch r)) = currentValue r /\
  currentMap (snd (Watch r)) = currentMap r /\
  closed (snd (Watch r)) = closed r /\
  wClosed (watchable (snd (Watch r))) = wClosed (watchable r) /\
  wHistory (watchable (snd (Watch r))) = wHistory (watchable r).
Proof.
  unfold Watch, Watchable_Watch.
  destruct (wClosed (watchable r)) eqn:E; simpl; auto.
Qed.

Lemma tick_state r :
  currentValue (fst (reportMetrics_tick r)) = currentValue r /\
  currentMap (fst (reportMetrics_tick r)) = currentMap r /\
  closed (fst (reportMetrics_tick r)) = closed r /\
  watchable (fst (reportMetrics_tick r)) = watchable r.
Proof.
  unfold reportMetrics_tick, isClosed, value.
  destruct (closed r) eqn:Ec; simpl; [auto|].
  destruct (currentValue r) eqn:Ev; simpl; auto.
Qed.

Lemma exec_cons o os p : exec (o :: os) p = exec os (step o p).
Proof. reflexivity. Qed.

Lemma reachable_exec os p : reachable p -> reachable (exec os p).
Proof.
  revert p. induction os as [|o os IH]; intros p R; [exact R|].
  rewrite exec_cons. apply IH. constructor. exact R.
Qed.

(** ** The closed flag *)

Lemma step_closed o p :
  closed (reg (step o p)) = closed (reg p) \/
  (closed (reg p) = false /\ closed (reg (step o p)) = true /\
   Close (reg p) = (None, reg (step o p)) /\
   (o = CallClose \/ (o = RunReceive ChanClosed /\ pc p = AtReceive))).
Proof.
  destruct o as [| [got|] | | | |]; unfold step.
  - destruct (pc p); simpl; auto.
  - destruct (pc p); simpl; auto.
    destruct (examine got (reg p)) as [r'|val m r'] eqn:E; simpl.
    + apply examine_Skip in E as [l ->]. auto.
    + apply examine_Accept in E as (_ & _ & _ & _ & ->). auto.
  - destruct (pc p); simpl; auto.
    unfold Close. destruct (closed (reg p)) eqn:E; simpl; auto.
    right. auto 7.
  - destruct (pc p); simpl; auto.
  - destruct (sampling p); simpl; auto.
    left. apply tick_state.
  - destruct (pc p); unfold Close; destruct (closed (reg p)) eqn:E;
      simpl; auto; right; auto 7.
  - left. destruct (pc p); simpl; apply Watch_state.
Qed.

Lemma step_stays_closed o p :
  closed (reg p) = true -> closed (reg (step o p)) = true.
Proof.
  intros C. destruct (step_closed o p) as [E|(F & _)]; congruence.
Qed.

Lemma exec_stays_closed os p :
  closed (reg p) = true -> closed (reg (exec os p)) = true.
Proof.
  revert p. induction os as [|o os IH]; intros p C; [exact C|].
  rewrite exec_cons. apply IH, step_stays_closed, C.
Qed.

(** ** The invariant of a running registry *)

Lemma rinv_Close r : rinv r -> rinv (snd (Close r)).
Proof.
  intros [Hp Hh Hw Hs]. unfold Close.
  destruct (closed r) eqn:Ec; simpl; [split; auto; congruence|].
  split; simpl; auto; try discriminate.
  unfold Watchable_Close. destruct (wClosed (watchable r)); auto; congruence.
Qed.

Lemma rinv_Watch r : rinv r -> rinv (snd (Watch r)).
Proof.
  intros [Hp Hh Hw Hs]. unfold Watch, Watchable_Watch.
  destruct (wClosed (watchable r)) eqn:Eh; simpl; [split; auto; congruence|].
  split; simpl; auto; congruence.
Qed.

Lemma rinv_tick r : rinv r -> rinv (fst (reportMetrics_tick r)).
Proof.
  intros I. pose proof I as [Hp Hh Hw Hs].
  unfold reportMetrics_tick, isClosed, value.
  destruct (closed r) eqn:Ec; simpl; [exact I|].
  destruct (currentValue r) eqn:Ev; simpl; [|exact I].
  split; simpl; rewrite ?Ev; auto; congruence.
Qed.

Lemma rinv_log l r : rinv r -> rinv (log l r).
Proof. intros [Hp Hh Hw Hs]. split; simpl; auto. Qed.

Lemma rinv_Inc r : rinv r -> rinv (numInvalidUpdates_Inc r).
Proof. intros [Hp Hh Hw Hs]. split; simpl; auto. Qed.

Lemma rinv_install val m r :
  getMapFromUpdate (Some val) = Ok m -> rinv r -> rinv (install val m r).
Proof.
  intros Hv [Hp Hh Hw Hs]. unfold install, Watchable_Update.
  destruct (wClosed (watchable r)) eqn:Eh; split; simpl; auto; congruence.
Qed.

Lemma inv_start (d : DynamicOptions) watch initValue (m : M) :
  getMapFromUpdate initValue = Ok m -> inv (start d watch initValue m).
Proof.
  intros Hp. split.
  - split; simpl; auto. discriminate.
  - intros ? ? ?. discriminate.
Qed.

Lemma inv_step o p : inv p -> inv (step o p).
Proof.
  intros I. pose proof I as [R Q].
  destruct o as [| [got|] | | | |]; unfold step.
  - destruct (pc p) eqn:Epc; try exact I.
    split; [exact R|]. intros ? ? D. simpl in D.
    destruct (isClosed (reg p)); discriminate.
  - destruct (pc p) eqn:Epc; try exact I.
    destruct (examine got (reg p)) as [r'|val m r'] eqn:E.
    + apply examine_Skip in E as [l ->].
      split; [apply rinv_log, rinv_Inc, R|]. intros ? ? ?; discriminate.
    + apply examine_Accept in E as (_ & Hn & Hp' & He & ->).
      split; [apply rinv_log, R|]. intros ? ? D. inversion D; subst. auto.
  - destruct (pc p) eqn:Epc; try exact I.
    split; [apply rinv_Close, R|]. intros ? ? ?; discriminate.
  - destruct (pc p) as [| |val m|] eqn:Epc; try exact I.
    destruct (Q val m Epc) as (Hn & Hp' & He).
    split; [apply rinv_install; assumption|]. intros ? ? ?; discriminate.
  - destruct (sampling p); [|exact I].
    split; [apply rinv_tick, R|].
    intros val m D. simpl in D. destruct (Q val m D) as (Hn & Hp' & He).
    simpl. destruct (tick_state (reg p)) as (-> & -> & _). auto.
  - assert (inv {| reg := snd (Close (reg p)); pc := pc p; sampling := sampling p |}).
    { split; [apply rinv_Close, R|].
      intros val m D. simpl in D. destruct (Q val m D) as (Hn & Hp' & He).
      simpl. destruct (Close_state (reg p)) as (-> & -> & _). auto. }
    destruct (pc p); assumption.
  - assert (inv {| reg := snd (Watch (reg p)); pc := pc p; sampling := sampling p |}).
    { split; [apply rinv_Watch, R|].
      intros val m D. simpl in D. destruct (Q val m D) as (Hn & Hp' & He).
      simpl. destruct (Watch_state (reg p)) as (-> & -> & _). auto. }
    destruct (pc p); assumption.
Qed.

Lemma reachable_inv p : reachable p -> inv p.
Proof.
  induction 1 as [d watch initValue m Hp | o p _ IH].
  - apply inv_start, Hp.
  - apply inv_step, IH.
Qed.

End Facts.

Section Claims.

Context {V P M : Type} `{KV : KVValue V P} `{NM : NamespaceMap P M}.

Implicit Types (r : dynamicRegistry V M) (p : Proc V M) (o : op V)
  (got : option V) (os : list (op V)).

(** C3.  When the value read after a notification meets one of the four
    rejection conditions (nil, not newer than the stored value, does not
    parse, parses to a map equal to the stored one), the loop iteration
    leaves [currentValue] and [currentMap] as they are, hands nothing to
    the hub, adds exactly one to [numInvalidUpdates], writes one log line,
    and goes on with the next iteration instead of ending the loop. *)
Theorem rejected_update_is_skipped r got :
  rejected r got ->
  let r' := iteration got r in
  currentValue r' = currentValue r /\
  currentMap r' = currentMap r /\
  watchable r' = watchable r /\
  closed r' = closed r /\
  numInvalidUpdates (metrics r') = numInvalidUpdates (metrics r) + 1 /\
  (exists l, logger r' = logger r ++ [l]) /\
  (forall rest, isClosed r = false ->
     run (Notified got :: rest) r = run rest r') /\
  (forall p, reg p = r -> pc p = AtReceive ->
     step (RunReceive (Notified got)) p =
     {| reg := r'; pc := AtLoopHead; sampling := sampling p |}).
Proof.
  intros R r'. subst r'. unfold iteration.
  destruct (examine_rejected got r R) as [l E]. rewrite E.
  repeat split; simpl; eauto.
  - intros rest C. rewrite C. unfold iteration. rewrite E. reflexivity.
  - intros p <- Hpc. unfold step. rewrite Hpc, E. reflexivity.
Qed.

(** C10.  The closed flag is false in a freshly built registry; an action
    changes it only from false to true, and only as the effect of a
    [Close()] that returns nil (called from outside, or by the loop when
    the channel is closed); so once [isClosed()] has answered true it
    answers true after any further actions. *)
Theorem closed_flag_is_monotone :
  (forall (d : DynamicOptions) watch (initValue : option V) (m : M),
     isClosed (reg (start d watch initValue m)) = false) /\
  (forall o p,
     isClosed (reg (step o p)) <> isClosed (reg p) ->
     isClosed (reg p) = false /\ isClosed (reg (step o p)) = true /\
     Close (reg p) = (None, reg (step o p)) /\
     (o = CallClose \/ o = RunReceive ChanClosed)) /\
  (forall os p,
     isClosed (reg p) = true -> isClosed (reg (exec os p)) = true).
Proof.
  unfold isClosed. split; [reflexivity|]. split.
  - intros o p D. destruct (step_closed o p) as [E|(A & B & C & [F|[F _]])];
      [contradiction| |]; auto.
  - intros os p. apply exec_stays_closed.
Qed.

Lemma Close_closes r : closed (snd (Close r)) = true.
Proof. unfold Close. destruct (closed r) eqn:E; simpl; auto. Qed.

(** C8.  On a registry that is not closed, [Close()] returns nil and sets
    the flag.  After a [Close()], whatever else happens, a further
    [Close()] returns [errRegistryAlreadyClosed] and a [Watch()] returns
    the hub's closed error with no subscription; neither changes the
    registry. *)
Theorem close_then_operations_fail p os :
  reachable p ->
  (isClosed (reg p) = false ->
     fst (Close (reg p)) = None /\ isClosed (snd (Close (reg p))) = true) /\
  let q := exec os (step CallClose p) in
  Close (reg q) = (Some errRegistryAlreadyClosed, reg q) /\
  Watch (reg q) = (Err errClosed, reg q).
Proof.
  intros R. split.
  - unfold isClosed, Close. intros ->. auto.
  - intros q.
    assert (C : closed (reg q) = true).
    { apply exec_stays_closed. unfold step.
      destruct (pc p); apply Close_closes. }
    assert (I : rinv (reg q)).
    { apply reachable_inv, reachable_exec. constructor. exact R. }
    split.
    + unfold Close. rewrite C. reflexivity.
    + unfold Watch, Watchable_Watch. rewrite (inv_hub _ I), C. reflexivity.
Qed.

Lemma newDynamicRegistry_Ok (d : DynamicOptions) (env : InitEnv V)
    (w w' : World V M) (l : nat) :
  newDynamicRegistry d env w = (Ok l, w') ->
  exists m,
    getMapFromUpdate (envGet env) = Ok m /\
    heap w !! l = None /\
    heap w' = <[l := start d {| watchKey := NamespaceRegistryKey d;
                                watchClosed := false |} (envGet env) m]> (heap w) /\
    validations w' = validations w.
Proof.
  unfold newDynamicRegistry. intros E.
  destruct (envKV env); [discriminate|].
  destruct (envWatch env); [discriminate|].
  destruct (waitOnInit (envFirst env) (envTie env) (InitTimeout d)) as [[err|] t];
    [discriminate|].
  destruct (getMapFromUpdate (envGet env)) as [m|err] eqn:Hp; [|discriminate].
  unfold alloc in E. simpl in E. inversion E; subst; clear E. simpl.
  exists m. repeat split; auto.
  apply not_elem_of_dom. apply is_fresh.
Qed.

(** C5.  In every process a registry can reach, [currentMap] is the parse
    of [currentValue].  Construction sets both from the value first read
    from the watch; an action either leaves both as they are or is the
    locked section of the loop, which replaces both with a value that
    passed the checks and its own parse. *)
Theorem value_and_map_agree :
  (forall p, reachable p ->
     getMapFromUpdate (currentValue (reg p)) = Ok (currentMap (reg p))) /\
  (forall (d : DynamicOptions) (env : InitEnv V) (w w' : World V M) l,
     newDynamicRegistry d env w = (Ok l, w') ->
     exists p, heap w' !! l = Some p /\ reachable p /\
       currentValue (reg p) = envGet env /\
       getMapFromUpdate (envGet env) = Ok (currentMap (reg p))) /\
  (forall o p, reachable p ->
     (currentValue (reg (step o p)) = currentValue (reg p) /\
      currentMap (reg (step o p)) = currentMap (reg p)) \/
     (exists val m, o = RunInstall /\ pc p = AtInstall val m /\
        getMapFromUpdate (Some val) = Ok m /\
        currentValue (reg (step o p)) = Some val /\
        currentMap (reg (step o p)) = m)).
Proof.
  split; [|split].
  - intros p R. apply reachable_inv in R as [I _]. apply I.
  - intros d env w w' l E.
    apply newDynamicRegistry_Ok in E as (m & Hp & _ & -> & _).
    eexists. split; [apply lookup_insert_eq|].
    split; [constructor; exact Hp|]. simpl. auto.
  - intros o p R. apply reachable_inv in R as [_ Q].
    destruct o as [| [got|] | | | |]; unfold step.
    + left. destruct (pc p); auto.
    + destruct (pc p); auto.
      destruct (examine got (reg p)) as [r'|val m r'] eqn:E; simpl.
      * apply examine_Skip in E as [l ->]. auto.
      * apply examine_Accept in E as (_ & _ & _ & _ & ->). auto.
    + left. destruct (pc p); auto. simpl.
      destruct (Close_state (reg p)) as (-> & -> & _). auto.
    + destruct (pc p) as [| |val m|] eqn:Epc; auto.
      right. exists val, m. destruct (Q val m Epc) as (_ & Hp & _).
      simpl. auto.
    + left. destruct (sampling p); auto. simpl.
      destruct (tick_state (reg p)) as (-> & -> & _). auto.
    + left. destruct (Close_state (reg p)) as (A & B & _).
      destruct (pc p); simpl; auto.
    + left. destruct (Watch_state (reg p)) as (A & B & _).
      destruct (pc p); simpl; auto.
Qed.

(** ** Versions *)

Lemma step_cases o p :
  (currentValue (reg (step o p)) = currentValue (reg p) /\
   currentMap (reg (step o p)) = currentMap (reg p) /\
   wHistory (watchable (reg (step o p))) = wHistory (watchable (reg p)) /\
   forall rest, publications (o :: rest) p = publications rest (step o p)) \/
  (exists val m, o = RunInstall /\ pc p = AtInstall val m /\
     step o p = {| reg := install val m (reg p); pc := AtLoopHead;
                   sampling := sampling p |}).
Proof.
  assert (E : (forall val m, o = RunInstall -> pc p <> AtInstall val m) ->
              forall rest, publications (o :: rest) p = publications rest (step o p)).
  { intros N rest. cbn [publications].
    destruct o; try reflexivity.
    destruct (pc p) as [| |val m|] eqn:Epc; try reflexivity.
    destruct (N val m eq_refl). reflexivity. }
  destruct o as [| [got|] | | | |].
  - left. repeat apply conj; [| | |apply E; discriminate];
      unfold step; destruct (pc p); reflexivity.
  - left. destruct (examine_keeps got (reg p)) as (A & B & C & _).
    repeat apply conj; [| | |apply E; discriminate];
      unfold step; destruct (pc p); try reflexivity;
      destruct (examine got (reg p)); simpl; congruence.
  - left. destruct (Close_state (reg p)) as (A & B & C).
    repeat apply conj; [| | |apply E; discriminate];
      unfold step; destruct (pc p); auto.
  - destruct (pc p) as [| |val m|] eqn:Epc;
      [left|left|right|left];
      try (repeat apply conj; [| | |apply E; congruence];
           unfold step; rewrite Epc; reflexivity).
    exists val, m. unfold step. rewrite Epc. auto.
  - left. destruct (tick_state (reg p)) as (A & B & _ & C).
    repeat apply conj; [| | |apply E; discriminate];
      unfold step; destruct (sampling p); simpl; congruence.
  - left. destruct (Close_state (reg p)) as (A & B & C).
    repeat apply conj; [| | |apply E; discriminate];
      unfold step; destruct (pc p); auto.
  - left. destruct (Watch_state (reg p)) as (A & B & _ & _ & C).
    repeat apply conj; [| | |apply E; discriminate];
      unfold step; destruct (pc p); auto.
Qed.

Lemma publications_increase (Hord : ordersByVersion) os :
  forall p v, inv p -> currentValue (reg p) = Some v ->
  exists v',
    currentValue (reg (exec os p)) = Some v' /\
    Version v <= Version v' /\
    wHistory (watchable (reg (exec os p))) =
      wHistory (watchable (reg p)) ++ map snd (publications os p) /\
    StronglySorted Z.lt (map (fun x => Version (fst x)) (publications os p)) /\
    Forall (fun x => Version v < Version (fst x) <= Version v' /\
                     getMapFromUpdate (Some (fst x)) = Ok (snd x))
           (publications os p).
Proof.
  induction os as [|o os IH]; intros p v I Hv.
  - exists v. simpl. rewrite app_nil_r.
    repeat split; auto; try lia; constructor.
  - rewrite exec_cons. pose proof (inv_step o p I) as I'.
    destruct (step_cases o p) as [(Ev & _ & Eh & Ep)|(val & m & -> & Epc & Es)].
    + destruct (IH (step o p) v I') as (v' & A & B & C & D & F); [congruence|].
      exists v'. rewrite Ep, C, Eh. auto.
    + destruct I as [R Q]. destruct (Q val m Epc) as (Hn & Hp & _).
      rewrite Hv in Hn. apply Hord in Hn.
      destruct (IH (step RunInstall p) val I') as (v' & A & B & C & D & F).
      { rewrite Es. reflexivity. }
      exists v'. split; [exact A|]. split; [lia|].
      assert (G : Forall (fun x => Version v < Version (fst x) <= Version v' /\
                     getMapFromUpdate (Some (fst x)) = Ok (snd x))
                   (publications os (step RunInstall p))).
      { eapply Forall_impl; [exact F|]. simpl. intros x [? ?]. split; [lia|auto]. }
      assert (Epub : publications (RunInstall :: os) p =
                if wClosed (watchable (reg p))
                then publications os (step RunInstall p)
                else (val, m) :: publications os (step RunInstall p)).
      { cbn [publications]. rewrite Epc. reflexivity. }
      assert (Eh : wHistory (watchable (reg (step RunInstall p))) =
                if wClosed (watchable (reg p))
                then wHistory (watchable (reg p))
                else wHistory (watchable (reg p)) ++ [m]).
      { rewrite Es. simpl. unfold Watchable_Update.
        destruct (wClosed (watchable (reg p))); reflexivity. }
      rewrite C, Epub, Eh.
      destruct (wClosed (watchable (reg p))).
      * auto.
      * rewrite <- app_assoc. simpl. split; [reflexivity|]. split.
        -- constructor; [exact D|].
           rewrite Forall_map. eapply Forall_impl; [exact F|].
           simpl. intros x [? ?]. lia.
        -- constructor; [|exact G]. simpl. split; [lia|exact Hp].
Qed.

(** C4.  Whenever an action replaces the stored value, the new value is
    newer than the replaced one by the store's [IsNewer] and parses to the
    new stored map.  In a store whose [IsNewer] compares versions, the
    stored version never decreases along any interleaving, and the maps
    the hub receives come from values with strictly increasing versions,
    all above the version stored before. *)
Theorem stored_version_only_increases :
  (forall o p, reachable p ->
     currentValue (reg (step o p)) = currentValue (reg p) \/
     exists val,
       currentValue (reg (step o p)) = Some val /\
       IsNewer val (currentValue (reg p)) = true /\
       getMapFromUpdate (Some val) = Ok (currentMap (reg (step o p)))) /\
  (ordersByVersion ->
   forall os p, reachable p ->
     exists v v',
       currentValue (reg p) = Some v /\
       currentValue (reg (exec os p)) = Some v' /\
       Version v <= Version v' /\
       wHistory (watchable (reg (exec os p))) =
         wHistory (watchable (reg p)) ++ map snd (publications os p) /\
       StronglySorted Z.lt (map (fun x => Version (fst x)) (publications os p)) /\
       Forall (fun x => Version v < Version (fst x) <= Version v' /\
                        getMapFromUpdate (Some (fst x)) = Ok (snd x))
              (publications os p)).
Proof.
  split.
  - intros o p R. apply reachable_inv in R as [_ Q].
    destruct (step_cases o p) as [(Ev & _)|(val & m & -> & Epc & Es)]; [auto|].
    right. exists val. destruct (Q val m Epc) as (Hn & Hp & _).
    rewrite Es. simpl. auto.
  - intros Hord os p R. apply reachable_inv in R.
    destruct (currentValue (reg p)) as [v|] eqn:Hv.
    + destruct (publications_increase Hord os p v R Hv) as (v' & H).
      exists v, v'. auto.
    + destruct R as [[Hp _ _ _] _]. rewrite Hv in Hp. discriminate.
Qed.

(** ** The loop, uninterrupted *)

Lemma run_history (gots : list (option V)) :
  forall r, closed r = false -> wClosed (watchable r) = false ->
  snd (run (map Notified gots) r) = Blocked /\
  closed (fst (run (map Notified gots) r)) = false /\
  wHistory (watchable (fst (run (map Notified gots) r))) =
    wHistory (watchable r) ++ passedChecks (currentValue r) (currentMap r) gots.
Proof.
  induction gots as [|got gots IH]; intros r C W;
    cbn [map run passedChecks]; unfold isClosed; rewrite C.
  - simpl. rewrite app_nil_r. auto.
  - unfold iteration, examine, maps.
    destruct got as [val|]; [|apply (IH (log _ (numInvalidUpdates_Inc r))); auto].
    destruct (getMapFromUpdate (Some val)) as [m|err] eqn:Hp.
    + destruct (IsNewer val (currentValue r)) eqn:Hn; cbn [negb andb];
        [|apply (IH (log _ (numInvalidUpdates_Inc r))); auto].
      destruct (Equal m (currentMap r)) eqn:He; cbn [negb];
        [apply (IH (log _ (numInvalidUpdates_Inc r))); auto|].
      destruct (IH (install val m (log (Infof_updated (Version val)) r)))
        as (A & B & D).
      * exact C.
      * simpl. unfold Watchable_Update. rewrite W. reflexivity.
      * rewrite A, B, D. simpl. unfold Watchable_Update. rewrite W. simpl.
        rewrite <- app_assoc. auto.
    + destruct (IsNewer val (currentValue r)); cbn [negb];
        apply (IH (log _ (numInvalidUpdates_Inc r))); auto.
Qed.

Lemma passedChecks_all (Hord : ordersByVersion) (vs : list V) :
  forall (v0 : V) (m0 : M) (ms : list M),
  StronglySorted (fun a b => Version a < Version b) (v0 :: vs) ->
  Forall2 (fun v m => getMapFromUpdate (Some v) = Ok m) vs ms ->
  ForallOrdPairs (fun a b => Equal b a = false) (m0 :: ms) ->
  passedChecks (Some v0) m0 (map Some vs) = ms.
Proof.
  induction vs as [|v vs IH]; intros v0 m0 ms S F D.
  - inversion F. reflexivity.
  - inversion F as [|? m ? ms' Hp F']; subst.
    apply StronglySorted_inv in S as [S Hlt].
    inversion Hlt as [|? ? Hv _]; subst.
    inversion D as [|? ? Hd D']; subst.
    inversion Hd as [|? ? He _]; subst.
    apply Hord in Hv.
    cbn [map passedChecks]. rewrite Hp, Hv, He. cbn [negb andb].
    f_equal. apply IH; assumption.
Qed.

Lemma step_returned o p :
  pc p = AtReturn ->
  o = RunHead \/ (exists ev, o = RunReceive ev) \/ o = RunInstall ->
  step o p = p.
Proof.
  intros Hpc [->|[[[got|] ->]| ->]]; unfold step; rewrite Hpc; reflexivity.
Qed.

Lemma exec_returned (evs : list (chanEvent V)) :
  forall p, pc p = AtReturn -> exec (concat (map turn evs)) p = p.
Proof.
  induction evs as [|ev evs IH]; intros p Hpc; [reflexivity|].
  cbn [map concat turn app]. rewrite !exec_cons.
  rewrite (step_returned RunHead p), (step_returned (RunReceive ev) p),
    (step_returned RunInstall p); eauto.
Qed.

(** The interleaving in which nothing interrupts the loop is [run]. *)
Lemma run_exec (evs : list (chanEvent V)) :
  forall p, pc p = AtLoopHead ->
  reg (exec (concat (map turn evs)) p) = fst (run evs (reg p)).
Proof.
  induction evs as [|ev evs IH]; intros p Hpc.
  - simpl. destruct (isClosed (reg p)); reflexivity.
  - cbn [map concat turn app run]. rewrite !exec_cons.
    assert (A : step RunHead p =
                {| reg := reg p;
                   pc := if isClosed (reg p) then AtReturn else AtReceive;
                   sampling := sampling p |})
      by (unfold step; rewrite Hpc; reflexivity).
    rewrite A. clear A.
    destruct (isClosed (reg p)) eqn:C.
    + rewrite (step_returned (RunReceive ev)), (step_returned RunInstall),
        exec_returned; eauto.
    + destruct ev as [got|].
      * unfold iteration, step at 2. cbn [pc reg sampling].
        destruct (examine got (reg p)) as [r'|val m r'].
        -- unfold step. cbn [pc]. rewrite IH; reflexivity.
        -- unfold step. cbn [pc reg sampling]. rewrite IH; reflexivity.
      * unfold step at 2. cbn [pc reg sampling].
        rewrite step_returned, exec_returned; eauto.
Qed.

(** C1.  Let the store compare versions, and let the values it delivers,
    the initial one first, have strictly increasing versions, all parse,
    and have pairwise structurally different maps.  Then after the loop has
    handled them, on its own, the hub has been handed the initial map and
    then exactly the maps that pass the four checks, which are the maps of
    all delivered values in delivery order; a subscriber present from the
    start has been shown that same sequence; and the uninterrupted
    interleaving of the loop's actions ends in the same registry. *)
Theorem subscribers_see_delivered_maps_in_order
    (d : DynamicOptions) (watch : ValueWatch)
    (v0 : V) (m0 : M) (vs : list V) (ms : list M) :
  ordersByVersion ->
  StronglySorted (fun a b => Version a < Version b) (v0 :: vs) ->
  Forall2 (fun v m => getMapFromUpdate (Some v) = Ok m) (v0 :: vs) (m0 :: ms) ->
  ForallOrdPairs (fun a b => Equal b a = false) (m0 :: ms) ->
  let p0 := start d watch (Some v0) m0 in
  let sub := fst (Watch (reg p0)) in
  let r0 := snd (Watch (reg p0)) in
  let evs := map (fun v => Notified (Some v)) vs in
  let r := fst (run evs r0) in
  wHistory (watchable r) = m0 :: passedChecks (Some v0) m0 (map Some vs) /\
  passedChecks (Some v0) m0 (map Some vs) = ms /\
  (exists s, sub = Ok s /\ observed (watchable r) s = m0 :: ms) /\
  reg (exec (concat (map turn evs))
         {| reg := r0; pc := AtLoopHead; sampling := true |}) = r.
Proof.
  intros Hord S F D p0 sub r0 evs r.
  inversion F as [|? ? ? ? Hp0 F']; subst.
  assert (Ems : passedChecks (Some v0) m0 (map Some vs) = ms)
    by (apply passedChecks_all; assumption).
  assert (Eevs : evs = map Notified (map Some vs))
    by (unfold evs; rewrite map_map; reflexivity).
  destruct (run_history (map Some vs) r0) as (_ & _ & H); try reflexivity.
  change (currentValue r0) with (Some v0) in H.
  change (currentMap r0) with m0 in H.
  change (wHistory (watchable r0)) with [m0] in H.
  assert (Eh : wHistory (watchable r) = m0 :: ms).
  { unfold r. rewrite Eevs, H, Ems. reflexivity. }
  split; [rewrite Ems; exact Eh|]. split; [exact Ems|]. split.
  - eexists. split; [reflexivity|].
    unfold observed. simpl. rewrite Eh. reflexivity.
  - apply (run_exec evs {| reg := r0; pc := AtLoopHead; sampling := true |}).
    reflexivity.
Qed.

(** ** Construction and the initializer *)

Lemma newDynamicRegistry_validations (d : DynamicOptions) (env : InitEnv V)
    (w : World V M) :
  validations (snd (newDynamicRegistry d env w)) = validations w.
Proof.
  unfold newDynamicRegistry.
  destruct (envKV env); [reflexivity|].
  destruct (envWatch env); [reflexivity|].
  destruct (waitOnInit (envFirst env) (envTie env) (InitTimeout d)) as [[err|] t];
    [reflexivity|].
  destruct (getMapFromUpdate (envGet env)); reflexivity.
Qed.

(** C2, as the code has it.  With a zero or negative init timeout
    [waitOnInit] returns nil without waiting, and construction reads the
    watch at once: when the value it reads parses, the registry is built
    on it and is running, and when it is nil or does not parse,
    construction fails with the parse error and builds nothing.  No time
    passes in either case.  [Init] on an unused initializer does the same
    once validation has passed, and returns the validation error, before
    any construction, when it has not. *)
Theorem zero_timeout_reads_the_watch_at_once
    (d : DynamicOptions) (env : InitEnv V) (w : World V M) :
  InitTimeout d <= 0 -> envKV env = None -> envWatch env = None ->
  waitOnInit (envFirst env) (envTie env) (InitTimeout d) = (None, 0) /\
  now (snd (newDynamicRegistry d env w)) = now w /\
  match getMapFromUpdate (envGet env) with
  | Ok m =>
      exists l,
        fst (newDynamicRegistry d env w) = Ok l /\
        heap (snd (newDynamicRegistry d env w)) !! l =
          Some (start d {| watchKey := NamespaceRegistryKey d;
                           watchClosed := false |} (envGet env) m)
  | Err err =>
      fst (newDynamicRegistry d env w) = Err err /\
      heap (snd (newDynamicRegistry d env w)) = heap w
  end /\
  (Validate d = None ->
   now (snd (Init (NewDynamicInitializer d) env w)) = now w /\
   match getMapFromUpdate (envGet env) with
   | Ok m =>
       exists l,
         fst (Init (NewDynamicInitializer d) env w) =
           (Ok l, {| iopts := d; ireg := Some l |}) /\
         heap (snd (Init (NewDynamicInitializer d) env w)) !! l =
           Some (start d {| watchKey := NamespaceRegistryKey d;
                            watchClosed := false |} (envGet env) m)
   | Err err =>
       fst (Init (NewDynamicInitializer d) env w) =
         (Err err, NewDynamicInitializer d) /\
       heap (snd (Init (NewDynamicInitializer d) env w)) = heap w
   end) /\
  (forall e, Validate d = Some e ->
     Init (NewDynamicInitializer d) env w =
       (Err e, NewDynamicInitializer d, validated w)).
Proof.
  intros Hd Hkv Hw.
  assert (E : waitOnInit (envFirst env) (envTie env) (InitTimeout d) = (None, 0)).
  { unfold waitOnInit. destruct (Z.leb_spec (InitTimeout d) 0); [reflexivity|lia]. }
  split; [exact E|].
  assert (N : forall w0 : World V M,
            now (snd (newDynamicRegistry d env w0)) = now w0 /\
            match getMapFromUpdate (envGet env) with
            | Ok m =>
                exists l,
                  newDynamicRegistry d env w0 =
                    (Ok l, snd (newDynamicRegistry d env w0)) /\
                  heap (snd (newDynamicRegistry d env w0)) !! l =
                    Some (start d {| watchKey := NamespaceRegistryKey d;
                                     watchClosed := false |} (envGet env) m)
            | Err err =>
                newDynamicRegistry d env w0 =
                  (Err err, snd (newDynamicRegistry d env w0)) /\
                heap (snd (newDynamicRegistry d env w0)) = heap w0
            end).
  { intros w0. unfold newDynamicRegistry. rewrite Hkv, Hw, E.
    destruct (getMapFromUpdate (envGet env)) as [m|err]; simpl.
    - split; [lia|]. eexists. split; [reflexivity|]. apply lookup_insert_eq.
    - split; [lia|]. auto. }
  split; [apply N|]. split; [|split].
  - destruct (N w) as [_ A].
    destruct (getMapFromUpdate (envGet env)) as [m|err].
    + destruct A as (l & A & B). exists l. rewrite A. auto.
    + destruct A as (A & B). rewrite A. auto.
  - intros Hv. unfold Init. simpl. rewrite Hv.
    destruct (N (validated w)) as [T A]. simpl in T.
    destruct (getMapFromUpdate (envGet env)) as [m|err].
    + destruct A as (l & A & B). rewrite A. simpl.
      split; [exact T|]. exists l. auto.
    + destruct A as (A & B). rewrite A. simpl. auto.
  - intros e Hv. unfold Init. simpl. rewrite Hv. reflexivity.
Qed.

(** C7.  With a strictly positive init timeout, a client and a watch that
    open, and no notification ever, [waitOnInit] returns [errInitTimeOut]
    after exactly the timeout, construction returns that error to its
    caller, builds no registry, and so does [Init] once validation has
    passed; [errInitTimeOut] is none of the other errors. *)
Theorem silent_watch_times_out
    (d : DynamicOptions) (env : InitEnv V) (w : World V M) :
  0 < InitTimeout d -> envKV env = None -> envWatch env = None ->
  envFirst env = None ->
  waitOnInit (envFirst env) (envTie env) (InitTimeout d) =
    (Some errInitTimeOut, InitTimeout d) /\
  fst (newDynamicRegistry d env w) = Err errInitTimeOut /\
  now (snd (newDynamicRegistry d env w)) = now w + InitTimeout d /\
  heap (snd (newDynamicRegistry d env w)) = heap w /\
  (Validate d = None ->
   fst (Init (NewDynamicInitializer d) env w) =
     (Err errInitTimeOut, NewDynamicInitializer d)) /\
  errInitTimeOut <> errInvalidRegistry /\
  errInitTimeOut <> errRegistryAlreadyClosed /\
  errInitTimeOut <> errClosed /\
  (forall msg, errInitTimeOut <> errExternal msg) /\
  Error errInitTimeOut <> Error errInvalidRegistry /\
  Error errInitTimeOut <> Error errRegistryAlreadyClosed.
Proof.
  intros Hd Hkv Hw Hf.
  assert (E : waitOnInit (envFirst env) (envTie env) (InitTimeout d) =
              (Some errInitTimeOut, InitTimeout d)).
  { unfold waitOnInit. rewrite Hf.
    destruct (Z.leb_spec (InitTimeout d) 0); [lia|reflexivity]. }
  split; [exact E|].
  assert (F : forall w0 : World V M, newDynamicRegistry d env w0 =
            (Err errInitTimeOut,
             Errorf (Errorf_init_timed_out (InitTimeout d) errInitTimeOut)
               (waited (InitTimeout d) (opened (NamespaceRegistryKey d) w0)))).
  { intros w0. unfold newDynamicRegistry. rewrite Hkv, Hw, E. reflexivity. }
  rewrite F. simpl.
  repeat split; try discriminate.
  intros Hv. unfold Init. simpl. rewrite Hv, F. reflexivity.
Qed.

(** C6.  Once [Init] has returned a registry, every later [Init] on the
    initializer returns the same registry with a nil error, leaves the
    initializer as it is, and leaves the world as it is: options are not
    validated again and no watch is opened. *)
Theorem Init_is_idempotent
    (i i' : dynamicInitializer) (env : InitEnv V) (w w' : World V M) (l : nat) :
  Init i env w = (Ok l, i', w') ->
  ireg i' = Some l /\
  forall (env2 : InitEnv V) (w2 : World V M), Init i' env2 w2 = (Ok l, i', w2).
Proof.
  unfold Init. intros E.
  assert (H : ireg i' = Some l).
  { destruct (ireg i) eqn:Hr.
    - inversion E; subst. exact Hr.
    - destruct (Validate (iopts i)); [discriminate|].
      destruct (newDynamicRegistry (iopts i) env (validated w)) as [[a|err] w1];
        inversion E; subst. reflexivity. }
  split; [exact H|]. intros env2 w2. rewrite H. reflexivity.
Qed.

(** C9.  When [Init] returns an error, the initializer is as it was and
    holds no registry; the next [Init] on it validates the options again
    and, when they are valid, calls the constructor again, returning what
    it returns: it behaves as [Init] on a new initializer with the same
    options. *)
Theorem failed_Init_can_be_retried
    (i i' : dynamicInitializer) (env : InitEnv V) (w w' : World V M) (err : error) :
  Init i env w = (Err err, i', w') ->
  i' = i /\ ireg i' = None /\
  forall (env2 : InitEnv V) (w2 : World V M),
    Init i' env2 w2 = Init (NewDynamicInitializer (iopts i)) env2 w2 /\
    validations (snd (Init i' env2 w2)) = S (validations w2) /\
    (Validate (iopts i) = None ->
     forall l w3,
       newDynamicRegistry (iopts i) env2 (validated w2) = (Ok l, w3) ->
       Init i' env2 w2 = (Ok l, {| iopts := iopts i; ireg := Some l |}, w3)).
Proof.
  unfold Init. intros E.
  destruct (ireg i) eqn:Hr; [discriminate|].
  assert (Hi : i' = i).
  { destruct (Validate (iopts i)); [inversion E; reflexivity|].
    destruct (newDynamicRegistry (iopts i) env (validated w)) as [[a|e] w1];
      inversion E; reflexivity. }
  subst i'. split; [reflexivity|]. split; [exact Hr|].
  assert (Hnew : i = NewDynamicInitializer (iopts i)).
  { destruct i as [io ir]. simpl in Hr. subst ir. reflexivity. }
  intros env2 w2. rewrite Hr. simpl. split; [rewrite <- Hnew; reflexivity|]. split.
  - destruct (Validate (iopts i)); [reflexivity|].
    pose proof (newDynamicRegistry_validations (iopts i) env2 (validated w2)) as N.
    destruct (newDynamicRegistry (iopts i) env2 (validated w2)) as [[a|e] w1];
      simpl in *; exact N.
  - intros Hv l w3 Hn. rewrite Hv, Hn. reflexivity.
Qed.

End Claims.

(** * The properties on the fake store *)

Lemma fake_ordersByVersion : @ordersByVersion Fake.value Fake.doc _.
Proof. intros v w. simpl. apply Z.ltb_lt. Defined.

Lemma fake_p1_reachable : reachable Fake.p1.
Proof. apply reachable_start. reflexivity. Defined.

(** The conversion of the gauge beyond 53 bits: a tie goes to the even
    neighbour, and the image can lie above the integer. *)
Example float64_of_int_rounds :
  float64_of_int (2 ^ 53 + 1) = 2 ^ 53 /\
  float64_of_int (2 ^ 53 + 2) = 2 ^ 53 + 2 /\
  float64_of_int (2 ^ 53 + 3) = 9007199254740996 /\
  float64_of_int (- (2 ^ 53 + 3)) = -9007199254740996 /\
  float64_of_int (2 ^ 63 - 1) = 2 ^ 63.
Proof. repeat split. Qed.

(** The sampler on a stored version of 54 bits: the gauge takes the
    rounded image, which here lies above the version. *)
Example gauge_of_a_54_bit_version :
  let big := {| Fake.ver := 2 ^ 53 + 3; Fake.bytes := Some [("nsA"%string, 1)] |} in
  let p := step SamplerTick (start Fake.o30 Fake.kw (Some big) [("nsA"%string, 1)]) in
  currentVersion (metrics (reg p)) = 9007199254740996 /\
  currentValue (reg p) = Some big.
Proof. split; reflexivity. Qed.

(** The scenario of section 8 of the specification, with a nil and an
    undecodable value added: versions 3 and 4 reach the hub, the four
    other deliveries are counted as invalid. *)
Example scenario_outcome :
  let r := fst (run Fake.scenario (reg Fake.p1)) in
  wHistory (watchable r) =
    [[("nsA"%string, 1)]; [("nsA"%string, 2)];
     [("nsA"%string, 2); ("nsB"%string, 7)]] /\
  numInvalidUpdates (metrics r) = 4 /\
  logger r = [Warnf_identical; Infof_updated 3; Warnf_older 2; Warnf_nil;
              Warnf_invalid errInvalidRegistry; Infof_updated 4] /\
  currentValue r = Some Fake.v4.
Proof. repeat split. Qed.

(** A [Close()] that falls between the checks and the locked section: the
    value is stored, the closed hub refuses its map. *)
Example close_before_install :
  let p := exec [RunHead; RunReceive (Notified (Some Fake.v3)); CallClose;
                 RunInstall; RunHead] Fake.p1 in
  currentValue (reg p) = Some Fake.v3 /\
  currentMap (reg p) = [("nsA"%string, 2)] /\
  wHistory (watchable (reg p)) = [[("nsA"%string, 1)]] /\
  pc p = AtReturn.
Proof. repeat split. Qed.

(** C1 on deliveries 3 and 4 after the initial value 1. *)
Lemma subscribers_see_delivered_maps_in_order_witness :
  @ordersByVersion Fake.value Fake.doc _ /\
  StronglySorted (fun a b => Version a < Version b) (Fake.v1 :: Fake.delivered) /\
  Forall2 (fun v m => getMapFromUpdate (Some v) = Ok m)
    (Fake.v1 :: Fake.delivered) ([("nsA"%string, 1)] :: Fake.parsed) /\
  ForallOrdPairs (fun a b => Equal b a = false)
    ([("nsA"%string, 1)] :: Fake.parsed) /\
  wHistory (watchable
    (fst (run (map (fun v => Notified (Some v)) Fake.delivered)
            (snd (Watch (reg Fake.p1)))))) =
  [("nsA"%string, 1)] :: Fake.parsed.
Proof.
  assert (H1 : StronglySorted (fun a b : Fake.value => Version a < Version b)
                 (Fake.v1 :: Fake.delivered)).
  { repeat constructor; simpl; lia. }
  assert (H2 : Forall2 (fun (v : Fake.value) (m : Fake.doc) =>
                 getMapFromUpdate (Some v) = Ok m)
                 (Fake.v1 :: Fake.delivered) ([("nsA"%string, 1)] :: Fake.parsed)).
  { repeat constructor. }
  assert (H3 : ForallOrdPairs (fun a b : Fake.doc => Equal b a = false)
                 ([("nsA"%string, 1)] :: Fake.parsed)).
  { repeat constructor. }
  split; [exact fake_ordersByVersion|].
  split; [exact H1|]. split; [exact H2|]. split; [exact H3|].
  destruct (subscribers_see_delivered_maps_in_order Fake.o30 Fake.kw
              Fake.v1 [("nsA"%string, 1)] Fake.delivered Fake.parsed
              fake_ordersByVersion H1 H2 H3) as (A & B & _).
  rewrite B in A. exact A.
Defined.

(** C3 on version 2 of the scenario, whose content equals version 1. *)
Lemma rejected_update_is_skipped_witness :
  rejected (reg Fake.p1) (Some Fake.v2) /\
  currentValue (iteration (Some Fake.v2) (reg Fake.p1)) = Some Fake.v1 /\
  numInvalidUpdates (metrics (iteration (Some Fake.v2) (reg Fake.p1))) = 1.
Proof.
  assert (R : rejected (reg Fake.p1) (Some Fake.v2)).
  { apply rejected_identical with (m := [("nsA"%string, 1)]); reflexivity. }
  split; [exact R|].
  destruct (rejected_update_is_skipped (reg Fake.p1) (Some Fake.v2) R)
    as (A & _ & _ & _ & B & _).
  split; [exact A|exact B].
Defined.

(** C4 on the scenario. *)
Lemma stored_version_only_increases_witness :
  @ordersByVersion Fake.value Fake.doc _ /\ reachable Fake.p1 /\
  exists v v',
    currentValue (reg Fake.p1) = Some v /\
    currentValue (reg (exec (concat (map turn Fake.scenario)) Fake.p1)) = Some v' /\
    Version v <= Version v' /\
    StronglySorted Z.lt
      (map (fun x => Version (fst x))
         (publications (concat (map turn Fake.scenario)) Fake.p1)).
Proof.
  split; [exact fake_ordersByVersion|]. split; [exact fake_p1_reachable|].
  destruct (proj2 stored_version_only_increases fake_ordersByVersion
              (concat (map turn Fake.scenario)) Fake.p1 fake_p1_reachable)
    as (v & v' & A & B & C & _ & D & _).
  exists v, v'. auto.
Defined.

(** C5 on the scenario. *)
Lemma value_and_map_agree_witness :
  reachable (exec (concat (map turn Fake.scenario)) Fake.p1) /\
  getMapFromUpdate
    (currentValue (reg (exec (concat (map turn Fake.scenario)) Fake.p1))) =
  Ok (currentMap (reg (exec (concat (map turn Fake.scenario)) Fake.p1))).
Proof.
  assert (R : reachable (exec (concat (map turn Fake.scenario)) Fake.p1)).
  { apply reachable_exec. exact fake_p1_reachable. }
  split; [exact R|]. exact (proj1 value_and_map_agree _ R).
Defined.

(** C10 after a [Close()] and the scenario. *)
Lemma closed_flag_is_monotone_witness :
  isClosed (reg (step CallClose Fake.p1)) = true /\
  isClosed (reg (exec (concat (map turn Fake.scenario)) (step CallClose Fake.p1))) = true.
Proof.
  split; [reflexivity|].
  apply (proj2 (proj2 closed_flag_is_monotone)). reflexivity.
Defined.

(** C8 on the started registry, with the scenario after the [Close()]. *)
Lemma close_then_operations_fail_witness :
  reachable Fake.p1 /\
  fst (Close (reg Fake.p1)) = None /\
  fst (Close (reg (exec (concat (map turn Fake.scenario)) (step CallClose Fake.p1))))
    = Some errRegistryAlreadyClosed /\
  fst (Watch (reg (exec (concat (map turn Fake.scenario)) (step CallClose Fake.p1))))
    = Err errClosed.
Proof.
  split; [exact fake_p1_reachable|].
  destruct (close_then_operations_fail Fake.p1 (concat (map turn Fake.scenario))
              fake_p1_reachable) as (A & B & C).
  split; [apply A; reflexivity|].
  split; [rewrite B|rewrite C]; reflexivity.
Defined.

(** C2 as stated fails: with a zero timeout and a value that arrives only
    later, the watch holds nil when construction reads it, and
    construction, and with it [Init] on valid options, returns
    [errInvalidRegistry] and builds no registry. *)
Lemma zero_timeout_without_value_fails :
  InitTimeout Fake.o0 = 0 /\
  Validate Fake.o0 = None /\
  envFirst Fake.env_late = Some 5 /\
  fst (newDynamicRegistry Fake.o0 Fake.env_late Fake.w0) = Err errInvalidRegistry /\
  heap (snd (newDynamicRegistry Fake.o0 Fake.env_late Fake.w0)) = ∅ /\
  fst (Init (NewDynamicInitializer Fake.o0) Fake.env_late Fake.w0) =
    (Err errInvalidRegistry, NewDynamicInitializer Fake.o0) /\
  heap (snd (Init (NewDynamicInitializer Fake.o0) Fake.env_late Fake.w0)) = ∅.
Proof. repeat split. Qed.

(** C2, amended, on a watch whose value is there at once. *)
Lemma zero_timeout_reads_the_watch_at_once_witness :
  InitTimeout Fake.o0 <= 0 /\
  envKV Fake.env_ready = None /\ envWatch Fake.env_ready = None /\
  now (snd (newDynamicRegistry Fake.o0 Fake.env_ready Fake.w0)) = 0 /\
  (exists l, fst (newDynamicRegistry Fake.o0 Fake.env_ready Fake.w0) = Ok l) /\
  Validate Fake.o0 = None /\
  exists l, fst (Init (NewDynamicInitializer Fake.o0) Fake.env_ready Fake.w0) =
              (Ok l, {| iopts := Fake.o0; ireg := Some l |}).
Proof.
  assert (H : InitTimeout Fake.o0 <= 0) by (simpl; lia).
  assert (H1 : envKV Fake.env_ready = None) by reflexivity.
  assert (H2 : envWatch Fake.env_ready = None) by reflexivity.
  assert (Hv : Validate Fake.o0 = None) by reflexivity.
  split; [exact H|]. split; [exact H1|]. split; [exact H2|].
  destruct (zero_timeout_reads_the_watch_at_once Fake.o0 Fake.env_ready Fake.w0
              H H1 H2) as (_ & A & (l & B & _) & I & _).
  split; [exact A|]. split; [exists l; exact B|]. split; [exact Hv|].
  destruct (I Hv) as (_ & l' & C & _).
  exists l'. exact C.
Defined.

(** C7 with a timeout of 30 and a watch that stays silent. *)
Lemma silent_watch_times_out_witness :
  0 < InitTimeout Fake.o30 /\
  envKV Fake.env_silent = None /\ envWatch Fake.env_silent = None /\
  envFirst Fake.env_silent = None /\
  fst (newDynamicRegistry Fake.o30 Fake.env_silent Fake.w0) = Err errInitTimeOut /\
  now (snd (newDynamicRegistry Fake.o30 Fake.env_silent Fake.w0)) = 30.
Proof.
  assert (H : 0 < InitTimeout Fake.o30) by (simpl; lia).
  split; [exact H|]. do 3 (split; [reflexivity|]).
  destruct (silent_watch_times_out Fake.o30 Fake.env_silent Fake.w0
              H eq_refl eq_refl eq_refl) as (_ & A & B & _).
  split; [exact A|exact B].
Defined.

(** C6 on an initializer whose first [Init] succeeds. *)
Lemma Init_is_idempotent_witness :
  Init (NewDynamicInitializer Fake.o30) Fake.env_arrives Fake.w0 =
    (Ok 0%nat, {| iopts := Fake.o30; ireg := Some 0%nat |},
     snd (Init (NewDynamicInitializer Fake.o30) Fake.env_arrives Fake.w0)) /\
  Init {| iopts := Fake.o30; ireg := Some 0%nat |} Fake.env_silent Fake.w0 =
    (Ok 0%nat, {| iopts := Fake.o30; ireg := Some 0%nat |}, Fake.w0).
Proof.
  assert (H : Init (NewDynamicInitializer Fake.o30) Fake.env_arrives Fake.w0 =
    (Ok 0%nat, {| iopts := Fake.o30; ireg := Some 0%nat |},
     snd (Init (NewDynamicInitializer Fake.o30) Fake.env_arrives Fake.w0))).
  { reflexivity. }
  split; [exact H|].
  exact (proj2 (Init_is_idempotent _ _ _ _ _ _ H) Fake.env_silent Fake.w0).
Defined.

(** C9 on an initializer whose first [Init] times out and whose second
    finds the value. *)
Lemma failed_Init_can_be_retried_witness :
  Init (NewDynamicInitializer Fake.o30) Fake.env_silent Fake.w0 =
    (Err errInitTimeOut, NewDynamicInitializer Fake.o30,
     snd (Init (NewDynamicInitializer Fake.o30) Fake.env_silent Fake.w0)) /\
  ireg (NewDynamicInitializer Fake.o30) = None /\
  Init (NewDynamicInitializer Fake.o30) Fake.env_arrives
    (snd (Init (NewDynamicInitializer Fake.o30) Fake.env_silent Fake.w0)) =
  Init (NewDynamicInitializer (iopts (NewDynamicInitializer Fake.o30)))
    Fake.env_arrives
    (snd (Init (NewDynamicInitializer Fake.o30) Fake.env_silent Fake.w0)).
Proof.
  assert (H : Init (NewDynamicInitializer Fake.o30) Fake.env_silent Fake.w0 =
    (Err errInitTimeOut, NewDynamicInitializer Fake.o30,
     snd (Init (NewDynamicInitializer Fake.o30) Fake.env_silent Fake.w0))).
  { reflexivity. }
  split; [exact H|].
  destruct (failed_Init_can_be_retried _ _ _ _ _ _ H) as (_ & A & B).
  split; [exact A|]. exact (proj1 (B Fake.env_arrives _)).
Defined.

(** * Further properties of the registry *)

Section Coverage.

Context {V P M : Type} `{KV : KVValue V P} `{NM : NamespaceMap P M}.

Implicit Types (r : dynamicRegistry V M) (p : Proc V M) (o : op V)
  (got : option V) (os : list (op V)).

(** ** One iteration *)

Lemma examine_Skip_rejected got r r' :
  examine got r = Skip r' -> rejected r got.
Proof.
  unfold examine, maps. intros E.
  destruct got as [val|]; [|constructor].
  destruct (IsNewer val (currentValue r)) eqn:Hn; cbn [negb] in E;
    [|apply rejected_not_newer; exact Hn].
  destruct (getMapFromUpdate (Some val)) as [m|err] eqn:Hp;
    [|eapply rejected_unparsable; exact Hp].
  destruct (Equal m (currentMap r)) eqn:He; [|discriminate].
  eapply rejected_identical; eassumption.
Qed.

Lemma rejected_same_fields got r r' :
  currentValue r' = currentValue r -> currentMap r' = currentMap r ->
  rejected r got -> rejected r' got.
Proof.
  intros Ev Em R. destruct R as [|val Hn|val err Hp|val m Hp He].
  - constructor.
  - apply rejected_not_newer. rewrite Ev. exact Hn.
  - eapply rejected_unparsable. exact Hp.
  - eapply rejected_identical; [exact Hp|]. rewrite Em. exact He.
Qed.

Lemma rejected_passedChecks got r (rest : list (option V)) :
  rejected r got ->
  passedChecks (currentValue r) (currentMap r) (got :: rest) =
  passedChecks (currentValue r) (currentMap r) rest.
Proof.
  intros R. cbn [passedChecks].
  destruct R as [|val Hn|val err Hp|val m Hp He]; [reflexivity| | |].
  - destruct (getMapFromUpdate (Some val)); [|reflexivity].
    rewrite Hn. reflexivity.
  - rewrite Hp. reflexivity.
  - rewrite Hp, He. rewrite andb_false_r. reflexivity.
Qed.

(** Every value read after a notification is either rejected, or
    installed with its map. *)
Lemma iteration_cases got r :
  (rejected r got /\
   exists l, iteration got r = log l (numInvalidUpdates_Inc r)) \/
  (exists val m,
     got = Some val /\
     IsNewer val (currentValue r) = true /\
     getMapFromUpdate (Some val) = Ok m /\
     Equal m (currentMap r) = false /\
     iteration got r = install val m (log (Infof_updated (Version val)) r)).
Proof.
  unfold iteration. destruct (examine got r) as [r'|val m r'] eqn:E.
  - left. split; [eapply examine_Skip_rejected; exact E|].
    apply examine_Skip in E as [l ->]. eauto.
  - right. apply examine_Accept in E as (-> & Hn & Hp & He & ->).
    exists val, m. auto.
Qed.

(** X1.  A value that is newer than the stored one, parses, and whose map
    differs from the stored one is installed by the loop iteration: it and
    its map become the stored pair, the counters are left alone, one
    "updated" line is logged, and the hub, when open, takes the map as its
    latest value; a closed hub stays as it is. *)
Theorem accepted_update_is_installed r (val : V) (m : M) :
  IsNewer val (currentValue r) = true ->
  getMapFromUpdate (Some val) = Ok m ->
  Equal m (currentMap r) = false ->
  let r' := iteration (Some val) r in
  currentValue r' = Some val /\
  currentMap r' = m /\
  metrics r' = metrics r /\
  closed r' = closed r /\
  kvWatch r' = kvWatch r /\
  logger r' = logger r ++ [Infof_updated (Version val)] /\
  (wClosed (watchable r) = false ->
     wValue (watchable r') = Some m /\
     wHistory (watchable r') = wHistory (watchable r) ++ [m] /\
     wActive (watchable r') = wActive (watchable r)) /\
  (wClosed (watchable r) = true -> watchable r' = watchable r).
Proof.
  intros Hn Hp He r'. subst r'.
  unfold iteration, examine, maps. rewrite Hn, Hp, He. cbn [negb].
  unfold install, Watchable_Update. simpl.
  repeat apply conj; try reflexivity; intros ->; simpl; auto.
Qed.

(** X2.  Whatever the watch delivers to an open registry, each delivery is
    either handed to the hub or counted as invalid, and each is logged
    once: the hub's history grows by exactly the maps that pass the four
    checks, the invalid-update counter by the number of the others, and
    the loop is left waiting for the next notification. *)
Theorem every_delivery_is_published_or_counted (gots : list (option V)) :
  forall r, closed r = false -> wClosed (watchable r) = false ->
  let r' := fst (run (map Notified gots) r) in
  let passed := passedChecks (currentValue r) (currentMap r) gots in
  wHistory (watchable r') = wHistory (watchable r) ++ passed /\
  numInvalidUpdates (metrics r') + Z.of_nat (length passed) =
    numInvalidUpdates (metrics r) + Z.of_nat (length gots) /\
  length (logger r') = (length (logger r) + length gots)%nat /\
  snd (run (map Notified gots) r) = Blocked /\
  closed r' = false /\ wClosed (watchable r') = false.
Proof.
  induction gots as [|got gots IH]; intros r C W.
  - cbn [map run passedChecks]. unfold isClosed. rewrite C. simpl.
    rewrite app_nil_r. repeat apply conj; auto; lia.
  - cbn zeta. cbn [map run]. unfold isClosed. rewrite C.
    destruct (iteration_cases got r)
      as [[R [l E]]|(val & m & -> & Hn & Hp & He & E)]; rewrite E.
    + rewrite (rejected_passedChecks got r gots R).
      destruct (IH (log l (numInvalidUpdates_Inc r)) C W)
        as (A & B & D & F & G & K).
      simpl in A, B, D. rewrite length_app in D. simpl in D.
      repeat apply conj; auto; simpl; lia.
    + cbn [passedChecks]. rewrite Hp, Hn, He. cbn [negb andb].
      destruct (IH (install val m (log (Infof_updated (Version val)) r)))
        as (A & B & D & F & G & K).
      * exact C.
      * simpl. unfold Watchable_Update. rewrite W. reflexivity.
      * simpl in A, B, D. unfold Watchable_Update in A. rewrite W in A.
        simpl in A. rewrite <- app_assoc in A. rewrite length_app in D.
        simpl in D.
        repeat apply conj; auto; simpl; lia.
Qed.

(** ** The end of the loop *)

Lemma run_app (evs1 evs2 : list (chanEvent V)) :
  forall r, snd (run evs1 r) = Blocked ->
  run (evs1 ++ evs2) r = run evs2 (fst (run evs1 r)).
Proof.
  induction evs1 as [|ev evs1 IH]; intros r B.
  - cbn [run] in B. cbn [app run].
    destruct (isClosed r) eqn:C; [discriminate|].
    simpl. destruct evs2 as [|[got|] evs2]; cbn [run]; rewrite C; reflexivity.
  - cbn [app run] in *. destruct (isClosed r); [discriminate|].
    destruct ev as [got|]; [|discriminate].
    apply IH. exact B.
Qed.

Lemma run_stays_open (gots : list (option V)) :
  forall r, closed r = false -> wClosed (watchable r) = false ->
  snd (run (map Notified gots) r) = Blocked /\
  closed (fst (run (map Notified gots) r)) = false /\
  wClosed (watchable (fst (run (map Notified gots) r))) = false.
Proof.
  induction gots as [|got gots IH]; intros r C W;
    cbn [map run]; unfold isClosed; rewrite C; [auto|].
  destruct (iteration_cases got r)
    as [[_ [l E]]|(val & m & _ & _ & _ & _ & E)]; rewrite E; apply IH; auto.
  simpl. unfold Watchable_Update. rewrite W. reflexivity.
Qed.

(** X3.  When the watch's channel is closed after some deliveries, the loop
    closes the registry itself and returns: that [Close()] returns nil, the
    hub and the remote watch end closed with no subscriber left, the
    stored value and map are those the deliveries left, and whatever the
    channel would yield afterwards is never read. *)
Theorem closed_channel_ends_the_loop
    (gots : list (option V)) (rest : list (chanEvent V)) r :
  closed r = false -> wClosed (watchable r) = false ->
  let r1 := fst (run (map Notified gots) r) in
  let r2 := snd (Close r1) in
  run (map Notified gots ++ ChanClosed :: rest) r = (r2, Returned) /\
  fst (Close r1) = None /\
  closed r2 = true /\
  wClosed (watchable r2) = true /\
  wActive (watchable r2) = 0%nat /\
  watchClosed (kvWatch r2) = true /\
  currentValue r2 = currentValue r1 /\
  currentMap r2 = currentMap r1 /\
  wHistory (watchable r2) = wHistory (watchable r1).
Proof.
  intros C W r1 r2.
  destruct (run_stays_open gots r C W) as (B & C1 & W1).
  fold r1 in C1, W1.
  assert (E : run (map Notified gots ++ ChanClosed :: rest) r = (r2, Returned)).
  { rewrite run_app by exact B. fold r1. cbn [run]. unfold isClosed.
    rewrite C1. reflexivity. }
  split; [exact E|]. subst r2. unfold Close, Watchable_Close.
  rewrite C1, W1. simpl. repeat apply conj; reflexivity.
Qed.

Lemma step_closed_hub o p :
  inv p -> closed (reg p) = true ->
  watchable (reg (step o p)) = watchable (reg p) /\
  forall rest, publications (o :: rest) p = publications rest (step o p).
Proof.
  intros [R Q] C.
  assert (W : wClosed (watchable (reg p)) = true)
    by (rewrite (inv_hub _ R); exact C).
  split.
  - destruct o as [| [got|] | | | |]; unfold step.
    + destruct (pc p); reflexivity.
    + destruct (examine_keeps got (reg p)) as (_ & _ & A & _).
      destruct (pc p); try reflexivity.
      destruct (examine got (reg p)); exact A.
    + destruct (pc p); try reflexivity. simpl. unfold Close. rewrite C.
      reflexivity.
    + destruct (pc p); try reflexivity. simpl. unfold Watchable_Update.
      rewrite W. reflexivity.
    + destruct (sampling p); [|reflexivity]. simpl. apply tick_state.
    + assert (A : watchable (snd (Close (reg p))) = watchable (reg p))
        by (unfold Close; rewrite C; reflexivity).
      destruct (pc p); exact A.
    + assert (A : watchable (snd (Watch (reg p))) = watchable (reg p))
        by (unfold Watch, Watchable_Watch; rewrite W; reflexivity).
      destruct (pc p); exact A.
  - intros rest. cbn [publications].
    destruct o; try reflexivity.
    destruct (pc p); try reflexivity. rewrite W. reflexivity.
Qed.

(** X4.  Once a registry is closed nothing reaches its subscribers any
    more: along any interleaving of the loop, the sampler and further
    calls, the hub stays exactly as [Close()] left it and no map is
    published. *)
Theorem closed_registry_publishes_nothing p os :
  reachable p -> closed (reg p) = true ->
  watchable (reg (exec os p)) = watchable (reg p) /\
  publications os p = [].
Proof.
  intros R C. apply reachable_inv in R. revert p R C.
  induction os as [|o os IH]; intros p I C; [split; reflexivity|].
  rewrite exec_cons.
  destruct (step_closed_hub o p I C) as [A B].
  destruct (IH (step o p) (inv_step o p I) (step_stays_closed o p C)) as [D E].
  rewrite D, A, B, E. split; reflexivity.
Qed.

Lemma step_keeps_return o p : pc p = AtReturn -> pc (step o p) = AtReturn.
Proof.
  intros H. destruct o as [| [got|] | | | |]; unfold step; rewrite H;
    try reflexivity; try exact H.
  destruct (sampling p); simpl; auto.
Qed.

Lemma step_keeps_sampler_off o p : sampling p = false -> sampling (step o p) = false.
Proof.
  intros H. destruct o as [| [got|] | | | |]; unfold step;
    try (destruct (pc p); simpl; auto; fail).
  - destruct (pc p); simpl; auto. destruct (examine got (reg p)); simpl; auto.
  - rewrite H. destruct (pc p); exact H.
Qed.

(** X5.  After [Close()] both goroutines end: from wherever the loop
    stands, at most one more iteration and the next evaluation of the loop
    condition bring it to its return, the sampler's next tick is its last,
    and a goroutine that has ended never resumes. *)
Theorem goroutines_end_after_close p (ev : chanEvent V) :
  closed (reg p) = true ->
  pc (exec (turn ev ++ [RunHead]) p) = AtReturn /\
  sampling (step SamplerTick p) = false /\
  (forall os q, pc q = AtReturn -> pc (exec os q) = AtReturn) /\
  (forall os q, sampling q = false -> sampling (exec os q) = false).
Proof.
  intros C. repeat apply conj.
  - assert (Head : forall q, closed (reg q) = true -> pc q = AtLoopHead ->
                   pc (step RunHead q) = AtReturn).
    { intros q Cq Hq. unfold step, isClosed. rewrite Hq. simpl. rewrite Cq.
      reflexivity. }
    cbn [turn app]. rewrite !exec_cons. cbn [exec fold_left].
    destruct (pc p) as [| |val m|] eqn:Epc.
    + assert (A : pc (step RunHead p) = AtReturn) by (apply Head; assumption).
      do 3 apply step_keeps_return. exact A.
    + assert (A : step RunHead p = p) by (unfold step; rewrite Epc; reflexivity).
      rewrite A. destruct ev as [got|].
      * destruct (examine_keeps got (reg p)) as (_ & _ & _ & K).
        unfold step at 3. rewrite Epc.
        destruct (examine got (reg p)) as [r'|val m r'].
        -- unfold step at 2. cbn [pc]. apply Head; [exact (eq_trans K C)|reflexivity].
        -- unfold step at 2. cbn [pc reg sampling].
           apply Head; [simpl; exact (eq_trans K C)|reflexivity].
      * do 2 apply step_keeps_return. unfold step. rewrite Epc. reflexivity.
    + assert (A : step RunHead p = p) by (unfold step; rewrite Epc; reflexivity).
      assert (B : step (RunReceive ev) p = p)
        by (unfold step; rewrite Epc; destruct ev; reflexivity).
      rewrite A, B. unfold step at 2. rewrite Epc.
      apply Head; [exact C|reflexivity].
    + do 4 apply step_keeps_return. exact Epc.
  - unfold step. destruct (sampling p) eqn:S; [|destruct (pc p); exact S].
    assert (A : snd (reportMetrics_tick (reg p)) = false)
      by (unfold reportMetrics_tick, isClosed; rewrite C; reflexivity).
    destruct (pc p); exact A.
  - intros os. induction os as [|o os IH]; intros q Hq; [exact Hq|].
    rewrite exec_cons. apply IH, step_keeps_return, Hq.
  - intros os. induction os as [|o os IH]; intros q Hq; [exact Hq|].
    rewrite exec_cons. apply IH, step_keeps_sampler_off, Hq.
Qed.

(** ** Subscribers *)

(** X6.  On a registry that is not closed, [Watch()] succeeds, and the
    subscription starts with the map that [maps()] returns: the new
    subscriber has been shown that map and nothing else.  The call adds
    one subscriber to the hub and changes nothing else. *)
Theorem Watch_yields_current_map p :
  reachable p -> closed (reg p) = false ->
  exists s,
    Watch (reg p) = (Ok s, snd (Watch (reg p))) /\
    subFirst s = Some (maps (reg p)) /\
    observed (watchable (snd (Watch (reg p)))) s = [maps (reg p)] /\
    wActive (watchable (snd (Watch (reg p)))) = S (wActive (watchable (reg p))) /\
    wHistory (watchable (snd (Watch (reg p)))) = wHistory (watchable (reg p)) /\
    wValue (watchable (snd (Watch (reg p)))) = wValue (watchable (reg p)) /\
    currentValue (snd (Watch (reg p))) = currentValue (reg p) /\
    currentMap (snd (Watch (reg p))) = currentMap (reg p) /\
    metrics (snd (Watch (reg p))) = metrics (reg p) /\
    closed (snd (Watch (reg p))) = false.
Proof.
  intros R C. apply reachable_inv in R as [I _].
  pose proof (inv_hub _ I) as W. rewrite C in W.
  pose proof (inv_shown _ I C) as S.
  unfold Watch, Watchable_Watch, observed, maps. rewrite W. simpl.
  eexists. split; [reflexivity|]. simpl. rewrite S, drop_all.
  repeat apply conj; auto.
Qed.

Lemma exec_history os :
  forall p,
  wHistory (watchable (reg (exec os p))) =
  wHistory (watchable (reg p)) ++ map snd (publications os p).
Proof.
  induction os as [|o os IH]; intros p.
  - simpl. rewrite app_nil_r. reflexivity.
  - rewrite exec_cons, IH.
    destruct (step_cases o p) as [(_ & _ & Eh & Ep)|(val & m & -> & Epc & Es)].
    + rewrite Eh, Ep. reflexivity.
    + cbn [publications]. rewrite Epc. rewrite Es at 1. simpl.
      unfold Watchable_Update.
      destruct (wClosed (watchable (reg p))); simpl; [reflexivity|].
      rewrite <- app_assoc. reflexivity.
Qed.

(** ** What the hub has been given *)

Lemma adjacentDiffer_snoc (l : list M) (m : M) :
  adjacentDiffer l ->
  (forall a, last l = Some a -> Equal m a = false) ->
  adjacentDiffer (l ++ [m]).
Proof.
  induction l as [|a [|b t] IH]; intros D L.
  - exact I.
  - simpl. split; [apply L; reflexivity|exact I].
  - destruct D as [D1 D2]. split; [exact D1|]. apply IH; [exact D2|].
    intros c Hc. apply L. exact Hc.
Qed.

Lemma hub_tracks_history p :
  reachable p ->
  last (wHistory (watchable (reg p))) = wValue (watchable (reg p)) /\
  adjacentDiffer (wHistory (watchable (reg p))).
Proof.
  induction 1 as [d watch initValue m Hp | o p R [L D]].
  - split; [reflexivity|exact I].
  - apply reachable_inv in R as [Ri Q].
    destruct (step_cases o p) as [(_ & _ & Eh & _)|(val & m & -> & Epc & Es)].
    + rewrite Eh. split; [|exact D]. rewrite L.
      destruct o as [| [got|] | | | |]; unfold step.
      * destruct (pc p); reflexivity.
      * destruct (examine_keeps got (reg p)) as (_ & _ & A & _).
        destruct (pc p); try reflexivity.
        destruct (examine got (reg p)); simpl; rewrite A; reflexivity.
      * destruct (pc p); try reflexivity. simpl. unfold Close, Watchable_Close.
        destruct (closed (reg p)); simpl; [reflexivity|].
        destruct (wClosed (watchable (reg p))); reflexivity.
      * destruct (pc p) eqn:Epc; try reflexivity.
        unfold step in Eh. rewrite Epc in Eh. simpl in Eh. simpl.
        unfold Watchable_Update in *.
        destruct (wClosed (watchable (reg p))); simpl in *; [reflexivity|].
        apply (f_equal (@length M)) in Eh. rewrite length_app in Eh.
        simpl in Eh. lia.
      * destruct (sampling p); [|reflexivity]. simpl.
        destruct (tick_state (reg p)) as (_ & _ & _ & ->). reflexivity.
      * assert (A : wValue (watchable (snd (Close (reg p)))) =
                    wValue (watchable (reg p))).
        { unfold Close, Watchable_Close.
          destruct (closed (reg p)); simpl; [reflexivity|].
          destruct (wClosed (watchable (reg p))); reflexivity. }
        destruct (pc p); simpl; rewrite A; reflexivity.
      * assert (A : wValue (watchable (snd (Watch (reg p)))) =
                    wValue (watchable (reg p))).
        { unfold Watch, Watchable_Watch.
          destruct (wClosed (watchable (reg p))); reflexivity. }
        destruct (pc p); simpl; rewrite A; reflexivity.
    + rewrite Es. simpl. unfold Watchable_Update.
      destruct (wClosed (watchable (reg p))) eqn:W; simpl; [auto|].
      split; [apply last_snoc|].
      apply adjacentDiffer_snoc; [exact D|].
      intros a La. destruct (Q val m Epc) as (_ & _ & He).
      assert (C : closed (reg p) = false) by (rewrite <- (inv_hub _ Ri); exact W).
      rewrite L, (inv_shown _ Ri C) in La. inversion La; subst. exact He.
Qed.

(** X8.  The hub is never given the same content twice in a row: in the
    list of maps handed to it since construction, each map differs
    structurally from the one before it, and the last one is the hub's
    latest value. *)
Theorem published_maps_differ_from_predecessor p :
  reachable p ->
  adjacentDiffer (wHistory (watchable (reg p))) /\
  last (wHistory (watchable (reg p))) = wValue (watchable (reg p)).
Proof.
  intros R. destruct (hub_tracks_history p R) as [L D]. split; assumption.
Qed.

Lemma float64_of_int_exact (z : Z) :
  Z.abs z < 2 ^ 53 -> float64_of_int z = z.
Proof.
  intros H. unfold float64_of_int.
  assert (L : Z.log2 (Z.abs z) < 53).
  { destruct (Z.eq_dec (Z.abs z) 0) as [E|N].
    - rewrite E. simpl. lia.
    - apply Z.log2_lt_pow2; lia. }
  destruct (Z.leb_spec (Z.log2 (Z.abs z) + 1) 53); [reflexivity|lia].
Qed.

(** X9.  In a store whose [IsNewer] compares versions, the version gauge
    shows no version the registry has not reached: it is still at its
    initial value, or it is the [float64] image of a version that is at
    most the version of the stored value; when that version has fewer than
    54 bits the gauge is the version itself and so is at most the stored
    version. *)
Theorem gauge_shows_a_version_already_reached p :
  ordersByVersion -> reachable p ->
  currentVersion (metrics (reg p)) = 0 \/
  exists w v,
    currentValue (reg p) = Some v /\
    Version w <= Version v /\
    currentVersion (metrics (reg p)) = float64_of_int (Version w) /\
    (Z.abs (Version w) < 2 ^ 53 ->
     currentVersion (metrics (reg p)) = Version w /\
     currentVersion (metrics (reg p)) <= Version v).
Proof.
  intros Hord R.
  assert (G : gaugeBehind (reg p)).
  { induction R as [d watch initValue m Hp | o p R G].
    - left. reflexivity.
    - pose proof (reachable_inv p R) as [Ri Q].
      assert (Keep : forall r', currentValue r' = currentValue (reg p) ->
                currentVersion (metrics r') = currentVersion (metrics (reg p)) ->
                gaugeBehind r').
      { intros r' Ev Eg. destruct G as [G|(w & v & Hv & Hle & G)]; [left|right].
        - rewrite Eg. exact G.
        - exists w, v. rewrite Ev, Eg. auto. }
      destruct o as [| [got|] | | | |]; unfold step.
      + destruct (pc p); exact G.
      + destruct (pc p); try exact G.
        destruct (examine got (reg p)) as [r'|val m r'] eqn:E; simpl.
        * apply examine_Skip in E as [l ->]. apply Keep; reflexivity.
        * apply examine_Accept in E as (_ & _ & _ & _ & ->).
          apply Keep; reflexivity.
      + destruct (pc p); try exact G. simpl.
        apply Keep; [apply Close_state|].
        unfold Close. destruct (closed (reg p)); reflexivity.
      + destruct (pc p) as [| |val m|] eqn:Epc; try exact G. simpl.
        destruct G as [G|(w & v & Hv & Hle & G)]; [left; exact G|right].
        exists w, val. split; [reflexivity|]. simpl.
        destruct (Q val m Epc) as (Hn & _ & _). rewrite Hv in Hn.
        apply Hord in Hn. split; [lia|exact G].
      + destruct (sampling p); [|exact G]. simpl.
        unfold reportMetrics_tick, isClosed, value.
        destruct (closed (reg p)); simpl; [exact G|].
        destruct (currentValue (reg p)) as [v|] eqn:Hv; simpl; [|exact G].
        right. exists v, v. simpl. split; [exact Hv|]. split; [lia|reflexivity].
      + assert (A : gaugeBehind (snd (Close (reg p)))).
        { apply Keep; [apply Close_state|].
          unfold Close. destruct (closed (reg p)); reflexivity. }
        destruct (pc p); exact A.
      + assert (A : gaugeBehind (snd (Watch (reg p)))).
        { apply Keep; [apply Watch_state|].
          unfold Watch, Watchable_Watch.
          destruct (wClosed (watchable (reg p))); reflexivity. }
        destruct (pc p); exact A. }
  destruct G as [G|(w & v & Hv & Hle & G)]; [left; exact G|right].
  exists w, v. repeat apply conj; auto.
  intros Hb. rewrite G, float64_of_int_exact by exact Hb.
  split; [reflexivity|exact Hle].
Qed.

(** ** Construction *)

Lemma waitOnInit_cases (first : option Z) (tie : bool) (d : Z) :
  (fst (waitOnInit first tie d) = None /\
   0 <= snd (waitOnInit first tie d) <= Z.max 0 d) \/
  (waitOnInit first tie d = (Some errInitTimeOut, d) /\ 0 < d).
Proof.
  unfold waitOnInit.
  destruct (Z.leb_spec d 0); [left; simpl; split; [reflexivity|lia]|].
  destruct first as [t|]; [|right; split; [reflexivity|lia]].
  destruct (Z.ltb_spec t d); simpl; [left; simpl; split; [reflexivity|lia]|].
  destruct (Z.eqb_spec t d); simpl; [|right; split; [reflexivity|lia]].
  destruct tie; simpl;
    [left; simpl; split; [reflexivity|lia]|right; split; [reflexivity|lia]].
Qed.

(** X10.  When construction fails it builds nothing.  An error of the
    config-service client or of opening the watch is returned as it is,
    with no watch opened, nothing logged and no time spent.  Any later
    failure is the init timeout or the parse error of the value read from
    the watch; the watch has then been opened and one error line logged.
    In every case the heap of registries is untouched. *)
Theorem failed_construction_builds_nothing
    (d : DynamicOptions) (env : InitEnv V) (w w' : World V M) (e : error) :
  newDynamicRegistry d env w = (Err e, w') ->
  heap w' = heap w /\
  validations w' = validations w /\
  (((envKV env = Some e \/ (envKV env = None /\ envWatch env = Some e)) /\
    w' = w) \/
   (envKV env = None /\ envWatch env = None /\
    watches w' = watches w ++ [NamespaceRegistryKey d] /\
    length (errlog w') = S (length (errlog w)) /\
    now w <= now w' <= now w + Z.max 0 (InitTimeout d) /\
    ((e = errInitTimeOut /\ 0 < InitTimeout d /\
      now w' = now w + InitTimeout d) \/
     getMapFromUpdate (envGet env) = Err e))).
Proof.
  unfold newDynamicRegistry. intros E.
  destruct (envKV env) as [e1|] eqn:Hkv.
  { inversion E; subst. auto 7. }
  destruct (envWatch env) as [e2|] eqn:Hw.
  { inversion E; subst. auto 7. }
  destruct (waitOnInit_cases (envFirst env) (envTie env) (InitTimeout d))
    as [[A B]|[A B]].
  - destruct (waitOnInit (envFirst env) (envTie env) (InitTimeout d))
      as [werr t]. simpl in A, B. subst werr.
    destruct (getMapFromUpdate (envGet env)) as [m|err] eqn:Hp.
    + unfold alloc in E. simpl in E. discriminate.
    + inversion E; subst. simpl. rewrite length_app. simpl.
      repeat apply conj; auto; try lia. right.
      repeat apply conj; auto; lia.
  - rewrite A in E. inversion E; subst. simpl. rewrite length_app. simpl.
    repeat apply conj; auto; try lia. right.
    repeat apply conj; auto; try lia.
Qed.

(** X11.  When construction succeeds the new registry sits at an address
    that was free, every registry that existed before is untouched, and
    the new one is open, has counted no invalid update, and has given its
    hub exactly the parse of the value read from the watch, so that a
    subscriber arriving now is shown that map.  Construction has waited no
    longer than the init timeout and logged no error. *)
Theorem successful_construction_state
    (d : DynamicOptions) (env : InitEnv V) (w w' : World V M) (l : nat) :
  newDynamicRegistry d env w = (Ok l, w') ->
  exists p m,
    heap w !! l = None /\
    heap w' !! l = Some p /\
    (forall l', l' <> l -> heap w' !! l' = heap w !! l') /\
    getMapFromUpdate (envGet env) = Ok m /\
    currentValue (reg p) = envGet env /\
    currentMap (reg p) = m /\
    closed (reg p) = false /\
    numInvalidUpdates (metrics (reg p)) = 0 /\
    wHistory (watchable (reg p)) = [m] /\
    fst (Watch (reg p)) = Ok {| subFirst := Some m; subSince := 1 |} /\
    pc p = AtLoopHead /\ sampling p = true /\
    watches w' = watches w ++ [NamespaceRegistryKey d] /\
    errlog w' = errlog w /\
    now w <= now w' <= now w + Z.max 0 (InitTimeout d).
Proof.
  intros E. pose proof E as E'.
  apply newDynamicRegistry_Ok in E' as (m & Hp & Hfree & Hheap & _).
  exists (start d {| watchKey := NamespaceRegistryKey d; watchClosed := false |}
            (envGet env) m), m.
  rewrite Hheap.
  split; [exact Hfree|]. split; [apply lookup_insert_eq|].
  split; [intros l' Hl; apply lookup_insert_ne; congruence|].
  split; [exact Hp|]. do 8 (split; [reflexivity|]).
  unfold newDynamicRegistry in E.
  destruct (envKV env); [discriminate|].
  destruct (envWatch env); [discriminate|].
  destruct (waitOnInit_cases (envFirst env) (envTie env) (InitTimeout d))
    as [[A B]|[A B]].
  - destruct (waitOnInit (envFirst env) (envTie env) (InitTimeout d))
      as [werr t]. simpl in A, B. subst werr. rewrite Hp in E.
    unfold alloc in E. simpl in E. inversion E; subst. simpl.
    repeat apply conj; auto; lia.
  - rewrite A in E. discriminate.
Qed.

(** X12.  With a positive init timeout and a first notification that comes
    strictly before it, construction does not time out: it waits exactly
    until the notification and then succeeds or fails as the value read
    from the watch parses or not. *)
Theorem value_in_time_is_no_timeout
    (d : DynamicOptions) (env : InitEnv V) (w : World V M) (t : Z) :
  envKV env = None -> envWatch env = None ->
  envFirst env = Some t -> 0 <= t < InitTimeout d ->
  waitOnInit (envFirst env) (envTie env) (InitTimeout d) = (None, t) /\
  now (snd (newDynamicRegistry d env w)) = now w + t /\
  match getMapFromUpdate (envGet env) with
  | Ok m => exists l, fst (newDynamicRegistry d env w) = Ok l
  | Err err => fst (newDynamicRegistry d env w) = Err err
  end.
Proof.
  intros Hkv Hw Hf Ht.
  assert (E : waitOnInit (envFirst env) (envTie env) (InitTimeout d) = (None, t)).
  { unfold waitOnInit. rewrite Hf.
    destruct (Z.leb_spec (InitTimeout d) 0); [lia|].
    destruct (Z.ltb_spec t (InitTimeout d)); [|lia].
    simpl. f_equal. lia. }
  split; [exact E|].
  unfold newDynamicRegistry. rewrite Hkv, Hw, E.
  destruct (getMapFromUpdate (envGet env)) as [m|err] eqn:Hp; simpl.
  - split; [reflexivity|]. eauto.
  - split; reflexivity.
Qed.

(** ** The initializer *)

Lemma newDynamicRegistry_Err_heap
    (d : DynamicOptions) (env : InitEnv V) (w w' : World V M) (e : error) :
  newDynamicRegistry d env w = (Err e, w') -> heap w' = heap w.
Proof.
  unfold newDynamicRegistry. intros E.
  destruct (envKV env); [inversion E; reflexivity|].
  destruct (envWatch env); [inversion E; reflexivity|].
  destruct (waitOnInit (envFirst env) (envTie env) (InitTimeout d)) as [[err|] t];
    [inversion E; reflexivity|].
  destruct (getMapFromUpdate (envGet env)); [|inversion E; reflexivity].
  unfold alloc in E. simpl in E. discriminate.
Qed.

(** X13.  An error returned by [Init] is the error of validation or the
    error of construction, as it is.  When validation fails nothing else
    is done: no watch is opened, no time passes, nothing is logged.  In
    both cases no registry is built and the initializer keeps none. *)
Theorem Init_error_comes_from_validation_or_construction
    (i i' : dynamicInitializer) (env : InitEnv V) (w w' : World V M) (e : error) :
  Init i env w = (Err e, i', w') ->
  heap w' = heap w /\
  ireg i' = None /\
  validations w' = S (validations w) /\
  ((Validate (iopts i) = Some e /\ w' = validated w) \/
   (Validate (iopts i) = None /\
    newDynamicRegistry (iopts i) env (validated w) = (Err e, w'))).
Proof.
  unfold Init. intros E.
  destruct (ireg i) eqn:Hr; [discriminate|].
  destruct (Validate (iopts i)) as [e1|].
  - inversion E; subst. repeat apply conj; auto.
  - pose proof (newDynamicRegistry_validations (iopts i) env (validated w)) as B.
    destruct (newDynamicRegistry (iopts i) env (validated w)) as [[l|e2] w1] eqn:N;
      [discriminate|].
    pose proof (newDynamicRegistry_Err_heap _ _ _ _ _ N) as A.
    simpl in B. inversion E; subst. rewrite A, B. repeat apply conj; auto.
Qed.

(** X14.  Registries are per initializer: two initializers that have not
    been used yet and are initialized one after the other get different
    registries, and building the second leaves the first as it is. *)
Theorem initializers_do_not_share_registries
    (i1 i1' i2 i2' : dynamicInitializer) (env1 env2 : InitEnv V)
    (w w1 w2 : World V M) (l1 l2 : nat) :
  ireg i1 = None -> ireg i2 = None ->
  Init i1 env1 w = (Ok l1, i1', w1) ->
  Init i2 env2 w1 = (Ok l2, i2', w2) ->
  l1 <> l2 /\
  is_Some (heap w1 !! l1) /\
  heap w2 !! l1 = heap w1 !! l1 /\
  is_Some (heap w2 !! l2).
Proof.
  unfold Init. intros H1 H2 E1 E2. rewrite H1 in E1. rewrite H2 in E2.
  destruct (Validate (iopts i1)); [discriminate|].
  destruct (Validate (iopts i2)); [discriminate|].
  destruct (newDynamicRegistry (iopts i1) env1 (validated w)) as [[a|e] wa] eqn:N1;
    inversion E1; subst; clear E1.
  destruct (newDynamicRegistry (iopts i2) env2 (validated w1)) as [[b|e] wb] eqn:N2;
    inversion E2; subst; clear E2.
  apply newDynamicRegistry_Ok in N1 as (m1 & _ & _ & Hh1 & _).
  apply newDynamicRegistry_Ok in N2 as (m2 & _ & Hfree & Hh2 & _).
  simpl in Hfree.
  assert (S1 : is_Some (heap w1 !! l1)).
  { rewrite Hh1, lookup_insert_eq. eauto. }
  assert (Hne : l1 <> l2).
  { intros ->. rewrite Hfree in S1. destruct S1 as [x Hx]. discriminate. }
  split; [exact Hne|]. split; [exact S1|]. rewrite Hh2. split.
  - apply lookup_insert_ne. congruence.
  - rewrite lookup_insert_eq. eauto.
Qed.

(** ** Close and redelivery *)

(** X15.  [Close()] only ends things: the stored value and map, the
    metrics, the log and what the hub last held are as before, so the
    accessors answer as before; the registry, its hub and its remote watch
    are closed afterwards and an open hub has let go of its subscribers;
    a second [Close()] changes nothing at all. *)
Theorem Close_keeps_the_state r :
  let r' := snd (Close r) in
  value r' = value r /\
  maps r' = maps r /\
  metrics r' = metrics r /\
  logger r' = logger r /\
  opts r' = opts r /\
  wValue (watchable r') = wValue (watchable r) /\
  wHistory (watchable r') = wHistory (watchable r) /\
  isClosed r' = true /\
  (closed r = false ->
     wClosed (watchable r') = true /\ watchClosed (kvWatch r') = true) /\
  (closed r = false -> wClosed (watchable r) = false ->
     wActive (watchable r') = 0%nat) /\
  Close r' = (Some errRegistryAlreadyClosed, r').
Proof.
  unfold Close, Watchable_Close, value, maps, isClosed.
  destruct (closed r) eqn:C; simpl.
  - rewrite C. repeat apply conj; auto; discriminate.
  - destruct (wClosed (watchable r)) eqn:W; simpl;
      repeat apply conj; auto; discriminate.
Qed.

(** X16.  Delivering a value a second time publishes nothing, in a store
    where no value is newer than itself: whatever the first delivery did,
    the second leaves the stored value, the map and the hub as they are
    and counts one invalid update. *)
Theorem redelivery_is_rejected r (val : V) :
  (forall v : V, IsNewer v (Some v) = false) ->
  let r1 := iteration (Some val) r in
  let r2 := iteration (Some val) r1 in
  rejected r1 (Some val) /\
  currentValue r2 = currentValue r1 /\
  currentMap r2 = currentMap r1 /\
  watchable r2 = watchable r1 /\
  numInvalidUpdates (metrics r2) = numInvalidUpdates (metrics r1) + 1.
Proof.
  intros Hirr r1 r2.
  assert (R1 : rejected r1 (Some val)).
  { subst r1. destruct (iteration_cases (Some val) r)
      as [[R [l E]]|(v & m & Hv & Hn & Hp & He & E)]; rewrite E.
    - eapply rejected_same_fields; [| |exact R]; reflexivity.
    - inversion Hv; subst v. apply rejected_not_newer. simpl. apply Hirr. }
  split; [exact R1|]. subst r2.
  destruct (iteration_cases (Some val) r1)
    as [[_ [l E]]|(v & m & Hv & Hn & Hp & He & _)].
  - rewrite E. simpl. auto.
  - inversion Hv; subst v. exfalso.
    destruct (examine_rejected _ _ R1) as [l E].
    unfold examine, maps in E. rewrite Hn, Hp, He in E. discriminate.
Qed.

(** ** Counter and log *)

Lemma step_counter_log o p :
  numInvalidUpdates (metrics (reg p)) <=
    numInvalidUpdates (metrics (reg (step o p))) <=
    numInvalidUpdates (metrics (reg p)) + 1 /\
  exists more, logger (reg (step o p)) = logger (reg p) ++ more.
Proof.
  assert (Same : forall r', metrics r' = metrics (reg p) ->
                   logger r' = logger (reg p) ->
                   numInvalidUpdates (metrics (reg p)) <=
                     numInvalidUpdates (metrics r') <=
                     numInvalidUpdates (metrics (reg p)) + 1 /\
                   exists more, logger r' = logger (reg p) ++ more).
  { intros r' -> ->. split; [lia|]. exists []. rewrite app_nil_r. reflexivity. }
  destruct o as [| [got|] | | | |]; unfold step.
  - destruct (pc p); apply Same; reflexivity.
  - destruct (pc p); try (apply Same; reflexivity).
    destruct (examine got (reg p)) as [r'|val m r'] eqn:E.
    + apply examine_Skip in E as [l ->]. simpl. split; [lia|eauto].
    + apply examine_Accept in E as (_ & _ & _ & _ & ->). simpl.
      split; [lia|eauto].
  - destruct (pc p); try (apply Same; reflexivity).
    simpl. apply Same; unfold Close; destruct (closed (reg p)); reflexivity.
  - destruct (pc p); apply Same; reflexivity.
  - destruct (sampling p); [|apply Same; reflexivity]. simpl.
    unfold reportMetrics_tick, isClosed, value.
    destruct (closed (reg p)); simpl; [apply Same; reflexivity|].
    destruct (currentValue (reg p)); simpl; [|apply Same; reflexivity].
    split; [lia|]. exists []. rewrite app_nil_r. reflexivity.
  - assert (A : numInvalidUpdates (metrics (reg p)) <=
                  numInvalidUpdates (metrics (snd (Close (reg p)))) <=
                  numInvalidUpdates (metrics (reg p)) + 1 /\
                exists more, logger (snd (Close (reg p))) = logger (reg p) ++ more)
      by (apply Same; unfold Close; destruct (closed (reg p)); reflexivity).
    destruct (pc p); exact A.
  - assert (A : numInvalidUpdates (metrics (reg p)) <=
                  numInvalidUpdates (metrics (snd (Watch (reg p)))) <=
                  numInvalidUpdates (metrics (reg p)) + 1 /\
                exists more, logger (snd (Watch (reg p))) = logger (reg p) ++ more)
      by (apply Same; unfold Watch, Watchable_Watch;
          destruct (wClosed (watchable (reg p))); reflexivity).
    destruct (pc p); exact A.
Qed.

(** X17.  Along any interleaving the invalid-update counter never goes
    down and rises by at most one per action, and the log only gets longer:
    what was logged stays logged. *)
Theorem counter_and_log_only_grow os :
  forall p,
  numInvalidUpdates (metrics (reg p)) <=
    numInvalidUpdates (metrics (reg (exec os p))) <=
    numInvalidUpdates (metrics (reg p)) + Z.of_nat (length os) /\
  exists more, logger (reg (exec os p)) = logger (reg p) ++ more.
Proof.
  induction os as [|o os IH]; intros p.
  - simpl. split; [lia|]. exists []. rewrite app_nil_r. reflexivity.
  - rewrite exec_cons.
    destruct (step_counter_log o p) as (A & m1 & B).
    destruct (IH (step o p)) as (C & m2 & D).
    split; [simpl length; lia|].
    exists (m1 ++ m2). rewrite D, B, app_assoc. reflexivity.
Qed.

End Coverage.

(** * The further properties on the fake store *)

Lemma fake_after_scenario_reachable :
  reachable (exec (concat (map turn Fake.scenario)) Fake.p1).
Proof. apply reachable_exec. exact fake_p1_reachable. Defined.

(** X1 on version 3 of the scenario. *)
Lemma accepted_update_is_installed_witness :
  IsNewer Fake.v3 (currentValue (reg Fake.p1)) = true /\
  getMapFromUpdate (Some Fake.v3) = Ok [("nsA"%string, 2)] /\
  Equal [("nsA"%string, 2)] (currentMap (reg Fake.p1)) = false /\
  currentValue (iteration (Some Fake.v3) (reg Fake.p1)) = Some Fake.v3 /\
  currentMap (iteration (Some Fake.v3) (reg Fake.p1)) = [("nsA"%string, 2)].
Proof.
  assert (H1 : IsNewer Fake.v3 (currentValue (reg Fake.p1)) = true)
    by reflexivity.
  assert (H2 : getMapFromUpdate (Some Fake.v3) = Ok [("nsA"%string, 2)])
    by reflexivity.
  assert (H3 : Equal [("nsA"%string, 2)] (currentMap (reg Fake.p1)) = false)
    by reflexivity.
  split; [exact H1|]. split; [exact H2|]. split; [exact H3|].
  destruct (accepted_update_is_installed (reg Fake.p1) Fake.v3 [("nsA"%string, 2)]
              H1 H2 H3) as (A & B & _).
  split; [exact A|exact B].
Defined.

(** X2 on the scenario: two maps published, four deliveries counted. *)
Lemma every_delivery_is_published_or_counted_witness :
  closed (reg Fake.p1) = false /\
  wClosed (watchable (reg Fake.p1)) = false /\
  numInvalidUpdates (metrics (fst (run (map Notified Fake.reads) (reg Fake.p1)))) +
    Z.of_nat (length (passedChecks (currentValue (reg Fake.p1))
                        (currentMap (reg Fake.p1)) Fake.reads)) =
  numInvalidUpdates (metrics (reg Fake.p1)) + Z.of_nat (length Fake.reads).
Proof.
  assert (H1 : closed (reg Fake.p1) = false) by reflexivity.
  assert (H2 : wClosed (watchable (reg Fake.p1)) = false) by reflexivity.
  split; [exact H1|]. split; [exact H2|].
  destruct (every_delivery_is_published_or_counted Fake.reads (reg Fake.p1)
              H1 H2) as (_ & A & _).
  exact A.
Defined.

(** X3 on the scenario followed by the closed channel. *)
Lemma closed_channel_ends_the_loop_witness :
  closed (reg Fake.p1) = false /\
  wClosed (watchable (reg Fake.p1)) = false /\
  run (map Notified Fake.reads ++ ChanClosed :: [Notified (Some Fake.v4)])
      (reg Fake.p1) =
  (snd (Close (fst (run (map Notified Fake.reads) (reg Fake.p1)))), Returned).
Proof.
  assert (H1 : closed (reg Fake.p1) = false) by reflexivity.
  assert (H2 : wClosed (watchable (reg Fake.p1)) = false) by reflexivity.
  split; [exact H1|]. split; [exact H2|].
  destruct (closed_channel_ends_the_loop Fake.reads [Notified (Some Fake.v4)]
              (reg Fake.p1) H1 H2) as (A & _).
  exact A.
Defined.

(** X4 on the scenario run after a [Close()]. *)
Lemma closed_registry_publishes_nothing_witness :
  reachable (step CallClose Fake.p1) /\
  closed (reg (step CallClose Fake.p1)) = true /\
  watchable (reg (exec (concat (map turn Fake.scenario)) (step CallClose Fake.p1))) =
  watchable (reg (step CallClose Fake.p1)).
Proof.
  assert (R : reachable (step CallClose Fake.p1))
    by (apply reachable_step; exact fake_p1_reachable).
  assert (C : closed (reg (step CallClose Fake.p1)) = true) by reflexivity.
  split; [exact R|]. split; [exact C|].
  exact (proj1 (closed_registry_publishes_nothing (step CallClose Fake.p1)
                  (concat (map turn Fake.scenario)) R C)).
Defined.

(** X5 on a loop that is waiting for a notification when [Close()] comes. *)
Lemma goroutines_end_after_close_witness :
  closed (reg (exec [RunHead; CallClose] Fake.p1)) = true /\
  pc (exec [RunHead; CallClose] Fake.p1) = AtReceive /\
  pc (exec (turn (Notified (Some Fake.v3)) ++ [RunHead])
        (exec [RunHead; CallClose] Fake.p1)) = AtReturn.
Proof.
  assert (C : closed (reg (exec [RunHead; CallClose] Fake.p1)) = true)
    by reflexivity.
  split; [exact C|]. split; [reflexivity|].
  exact (proj1 (goroutines_end_after_close (exec [RunHead; CallClose] Fake.p1)
                  (Notified (Some Fake.v3)) C)).
Defined.

(** X6 on the started registry. *)
Lemma Watch_yields_current_map_witness :
  reachable Fake.p1 /\ closed (reg Fake.p1) = false /\
  exists s, fst (Watch (reg Fake.p1)) = Ok s /\
            subFirst s = Some (maps (reg Fake.p1)).
Proof.
  assert (C : closed (reg Fake.p1) = false) by reflexivity.
  split; [exact fake_p1_reachable|]. split; [exact C|].
  destruct (Watch_yields_current_map Fake.p1 fake_p1_reachable C)
    as (s & A & B & _).
  exists s. split; [rewrite A; reflexivity|exact B].
Defined.

(** X8 after the scenario. *)
Lemma published_maps_differ_from_predecessor_witness :
  reachable (exec (concat (map turn Fake.scenario)) Fake.p1) /\
  adjacentDiffer
    (wHistory (watchable (reg (exec (concat (map turn Fake.scenario)) Fake.p1)))).
Proof.
  split; [exact fake_after_scenario_reachable|].
  exact (proj1 (published_maps_differ_from_predecessor _
                  fake_after_scenario_reachable)).
Defined.

(** X9 after the scenario and a tick of the sampler. *)
Lemma gauge_shows_a_version_already_reached_witness :
  @ordersByVersion Fake.value Fake.doc _ /\
  reachable (step SamplerTick (exec (concat (map turn Fake.scenario)) Fake.p1)) /\
  (currentVersion (metrics (reg (step SamplerTick
      (exec (concat (map turn Fake.scenario)) Fake.p1)))) = 0 \/
   exists w v : Fake.value,
     currentValue (reg (step SamplerTick
       (exec (concat (map turn Fake.scenario)) Fake.p1))) = Some v /\
     Version w <= Version v /\
     currentVersion (metrics (reg (step SamplerTick
       (exec (concat (map turn Fake.scenario)) Fake.p1)))) =
       float64_of_int (Version w)).
Proof.
  assert (R : reachable (step SamplerTick
                (exec (concat (map turn Fake.scenario)) Fake.p1)))
    by (apply reachable_step; exact fake_after_scenario_reachable).
  split; [exact fake_ordersByVersion|]. split; [exact R|].
  destruct (gauge_shows_a_version_already_reached _ fake_ordersByVersion R)
    as [G|(w & v & A & B & C & _)]; [left; exact G|right].
  exists w, v. auto.
Defined.

(** X10 on a watch that stays silent. *)
Lemma failed_construction_builds_nothing_witness :
  newDynamicRegistry Fake.o30 Fake.env_silent Fake.w0 =
    (Err errInitTimeOut, snd (newDynamicRegistry Fake.o30 Fake.env_silent Fake.w0)) /\
  heap (snd (newDynamicRegistry Fake.o30 Fake.env_silent Fake.w0)) = heap Fake.w0.
Proof.
  assert (H : newDynamicRegistry Fake.o30 Fake.env_silent Fake.w0 =
    (Err errInitTimeOut, snd (newDynamicRegistry Fake.o30 Fake.env_silent Fake.w0)))
    by reflexivity.
  split; [exact H|].
  exact (proj1 (failed_construction_builds_nothing _ _ _ _ _ H)).
Defined.

(** X11 on a watch whose value arrives in time. *)
Lemma successful_construction_state_witness :
  newDynamicRegistry Fake.o30 Fake.env_arrives Fake.w0 =
    (Ok 0%nat, snd (newDynamicRegistry Fake.o30 Fake.env_arrives Fake.w0)) /\
  exists p m,
    heap (snd (newDynamicRegistry Fake.o30 Fake.env_arrives Fake.w0)) !! 0%nat = Some p /\
    wHistory (watchable (reg p)) = [m].
Proof.
  assert (H : newDynamicRegistry Fake.o30 Fake.env_arrives Fake.w0 =
    (Ok 0%nat, snd (newDynamicRegistry Fake.o30 Fake.env_arrives Fake.w0)))
    by reflexivity.
  split; [exact H|].
  destruct (successful_construction_state _ _ _ _ _ H)
    as (p & m & _ & A & _ & _ & _ & _ & _ & _ & B & _).
  exists p, m. split; [exact A|exact B].
Defined.

(** X12 on a value that arrives after 5 of 30 time units. *)
Lemma value_in_time_is_no_timeout_witness :
  envKV Fake.env_arrives = None /\ envWatch Fake.env_arrives = None /\
  envFirst Fake.env_arrives = Some 5 /\ 0 <= 5 < InitTimeout Fake.o30 /\
  now (snd (newDynamicRegistry Fake.o30 Fake.env_arrives Fake.w0)) = now Fake.w0 + 5.
Proof.
  assert (H : 0 <= 5 < InitTimeout Fake.o30) by (simpl; lia).
  assert (H1 : envKV Fake.env_arrives = None) by reflexivity.
  assert (H2 : envWatch Fake.env_arrives = None) by reflexivity.
  assert (H3 : envFirst Fake.env_arrives = Some 5) by reflexivity.
  split; [exact H1|]. split; [exact H2|]. split; [exact H3|]. split; [exact H|].
  exact (proj1 (proj2 (value_in_time_is_no_timeout Fake.o30 Fake.env_arrives
                         Fake.w0 5 H1 H2 H3 H))).
Defined.

(** X13 on an initializer whose watch stays silent. *)
Lemma Init_error_comes_from_validation_or_construction_witness :
  Init (NewDynamicInitializer Fake.o30) Fake.env_silent Fake.w0 =
    (Err errInitTimeOut, NewDynamicInitializer Fake.o30,
     snd (Init (NewDynamicInitializer Fake.o30) Fake.env_silent Fake.w0)) /\
  heap (snd (Init (NewDynamicInitializer Fake.o30) Fake.env_silent Fake.w0)) =
    heap Fake.w0.
Proof.
  assert (H : Init (NewDynamicInitializer Fake.o30) Fake.env_silent Fake.w0 =
    (Err errInitTimeOut, NewDynamicInitializer Fake.o30,
     snd (Init (NewDynamicInitializer Fake.o30) Fake.env_silent Fake.w0)))
    by reflexivity.
  split; [exact H|].
  exact (proj1 (Init_error_comes_from_validation_or_construction _ _ _ _ _ _ H)).
Defined.

(** X14 on two initializers used one after the other. *)
Lemma initializers_do_not_share_registries_witness :
  ireg (NewDynamicInitializer Fake.o30) = None /\
  ireg (NewDynamicInitializer Fake.o0) = None /\
  Init (NewDynamicInitializer Fake.o30) Fake.env_arrives Fake.w0 =
    (Ok 0%nat, {| iopts := Fake.o30; ireg := Some 0%nat |},
     snd (Init (NewDynamicInitializer Fake.o30) Fake.env_arrives Fake.w0)) /\
  Init (NewDynamicInitializer Fake.o0) Fake.env_ready
    (snd (Init (NewDynamicInitializer Fake.o30) Fake.env_arrives Fake.w0)) =
    (Ok 1%nat, {| iopts := Fake.o0; ireg := Some 1%nat |},
     snd (Init (NewDynamicInitializer Fake.o0) Fake.env_ready
            (snd (Init (NewDynamicInitializer Fake.o30) Fake.env_arrives Fake.w0)))) /\
  0%nat <> 1%nat.
Proof.
  assert (H1 : Init (NewDynamicInitializer Fake.o30) Fake.env_arrives Fake.w0 =
    (Ok 0%nat, {| iopts := Fake.o30; ireg := Some 0%nat |},
     snd (Init (NewDynamicInitializer Fake.o30) Fake.env_arrives Fake.w0)))
    by reflexivity.
  assert (H2 : Init (NewDynamicInitializer Fake.o0) Fake.env_ready
    (snd (Init (NewDynamicInitializer Fake.o30) Fake.env_arrives Fake.w0)) =
    (Ok 1%nat, {| iopts := Fake.o0; ireg := Some 1%nat |},
     snd (Init (NewDynamicInitializer Fake.o0) Fake.env_ready
            (snd (Init (NewDynamicInitializer Fake.o30) Fake.env_arrives Fake.w0)))))
    by reflexivity.
  assert (N1 : ireg (NewDynamicInitializer Fake.o30) = None) by reflexivity.
  assert (N2 : ireg (NewDynamicInitializer Fake.o0) = None) by reflexivity.
  split; [exact N1|]. split; [exact N2|]. split; [exact H1|]. split; [exact H2|].
  exact (proj1 (initializers_do_not_share_registries _ _ _ _ _ _ _ _ _ _ _
                  N1 N2 H1 H2)).
Defined.

(** X15 on the registry after the scenario. *)
Lemma Close_keeps_the_state_witness :
  value (snd (Close (fst (run Fake.scenario (reg Fake.p1))))) = Some Fake.v4 /\
  Close (snd (Close (fst (run Fake.scenario (reg Fake.p1))))) =
    (Some errRegistryAlreadyClosed, snd (Close (fst (run Fake.scenario (reg Fake.p1))))).
Proof.
  destruct (Close_keeps_the_state (fst (run Fake.scenario (reg Fake.p1))))
    as (A & _ & _ & _ & _ & _ & _ & _ & _ & _ & B).
  split; [rewrite A; reflexivity|exact B].
Defined.

(** X16 on version 3 delivered twice. *)
Lemma redelivery_is_rejected_witness :
  (forall v : Fake.value, IsNewer v (Some v) = false) /\
  watchable (iteration (Some Fake.v3) (iteration (Some Fake.v3) (reg Fake.p1))) =
  watchable (iteration (Some Fake.v3) (reg Fake.p1)).
Proof.
  assert (H : forall v : Fake.value, IsNewer v (Some v) = false)
    by (intros v; simpl; apply Z.ltb_irrefl).
  split; [exact H|].
  destruct (redelivery_is_rejected (reg Fake.p1) Fake.v3 H) as (_ & _ & _ & A & _).
  exact A.
Defined.
